(** * util::sync — the cross-thread synchronisation utilities of globed2

    A shallow embedding of [src/util/sync.hpp]:

    - [SmartMessageQueue]: the [std::queue] behind a mutex and a condition
      variable;
    - [WrappingMutex] and its RAII [Guard];
    - [RelaxedAtomic];

    and of the managers and widgets around it: [AdminManager]
    ([managers/admin.cpp]), the saved-value helpers of [GlobedSettings]
    ([managers/settings.hpp]), the player list of [InvitePopup]
    ([ui/menu/room/invite_popup.cpp]) and [GlobedNameLabel]
    ([ui/general/name_label.cpp]).

    Every method of [SmartMessageQueue] takes [_mtx] on entry and holds it
    until it returns, so a method body is one atomic transition of the queue;
    what the other threads do while a waiter sleeps on [_cvar] is given to
    the waiting functions as an explicit list of wake-ups. *)

From Stdlib Require Import NArith ZArith Ascii String.
From stdpp Require Import base option list strings gmap fin_maps sorting.

Set Default Proof Using "Type".

(** ** Outcomes of a call *)

(** How a call into the library can end.  [Aborted] is a deliberate, loud
    failure (an [abort], a failed assertion, an uncaught exception);
    [Undefined] is a call whose behaviour C++ leaves undefined, with no
    diagnosis; [Blocked] is a call that cannot return in the state it is made
    in. *)
Inductive outcome (A : Type) : Type :=
| Normal (a : A)
| Aborted
| Undefined
| Blocked.
Arguments Normal {A} a.
Arguments Aborted {A}.
Arguments Undefined {A}.
Arguments Blocked {A}.

#[global] Instance outcome_ret : MRet outcome := λ A a, Normal a.
#[global] Instance outcome_bind : MBind outcome := λ A B f o,
  match o with
  | Normal a => f a
  | Aborted => Aborted
  | Undefined => Undefined
  | Blocked => Blocked
  end.

Definition returns {A} (o : outcome A) : Prop := ∃ a, o = Normal a.
Definition fails_loudly {A} (o : outcome A) : Prop := o = Aborted.

(** ** What the library accepts

    Two member functions of [util/sync.hpp] are templates whose bodies
    lean on the standard library in a way that the library only accepts
    for some arguments.  A template is instantiated at a call; when the
    body is ill-formed for the arguments of the call there is no code to
    run and the program that makes the call is rejected. *)

Inductive instantiation (A : Type) : Type :=
| Instantiates (a : A)
| IllFormed.
Arguments Instantiates {A} a.
Arguments IllFormed {A}.

Module StdLib.

(** The containers at hand, and the member functions through which their
    elements are reached, added and removed. *)
Inductive container : Type := std_queue | std_deque | std_vector.

Inductive member : Type :=
| front | back | push | emplace | pop | swap
| push_back | emplace_back | pop_back | push_front | emplace_front
| pop_front | insert | erase.

#[global] Instance member_eq_dec : EqDecision member.
Proof. solve_decision. Defined.

Definition members (c : container) : list member :=
  match c with
  | std_queue => [front; back; push; emplace; pop; swap]
  | std_deque =>
      [front; back; push_back; emplace_back; pop_back; push_front;
       emplace_front; pop_front; insert; emplace; erase; swap]
  | std_vector =>
      [front; back; push_back; emplace_back; pop_back; insert; emplace;
       erase; swap]
  end.

Definition has_member (c : container) (m : member) : bool :=
  bool_decide (m ∈ members c).

(** [std::back_inserter(c)]: assigning through the iterator calls
    [c.push_back(value)], which appends at the back; the assignment is
    ill-formed for a container without [push_back]. *)
Definition back_inserter {T} (c : container)
  : instantiation (list T → T → list T) :=
  if has_member c push_back then Instantiates (λ l x, l ++ [x])
  else IllFormed.

(** A function template, as a call sees it: for each template parameter
    in turn, whether it can be deduced from the arguments of a call. *)
Record function_template : Type := mk_template { deduced : list bool }.

(** [template<class T, class... Args> shared_ptr<T> make_shared(Args&&...)]:
    [T] occurs in the result type only, [Args] are the argument types. *)
Definition make_shared : function_template :=
  {| deduced := [false; true] |}.

(** A call that spells out the first [explicit] template arguments is
    well-formed when every other template parameter can be deduced. *)
Definition call_instantiates (f : function_template) (explicit : nat)
  : bool :=
  bool_decide (Forall (λ b, b = true) (drop explicit (deduced f))).

End StdLib.

(** ** SmartMessageQueue *)

Module SmartMessageQueue.
Section queue.
Context {T : Type}.

(** [_iq] is the [std::queue<T>], front first; [_cvar] is the condition
    variable, of which the model keeps the number of [notify_one] calls
    issued so far. *)
Record t : Type := mk { _iq : list T; _cvar : nat }.

(** [SmartMessageQueue() {}] *)
Definition new : t := {| _iq := []; _cvar := 0 |}.

Definition notify_one (q : t) : t :=
  {| _iq := _iq q; _cvar := S (_cvar q) |}.

Definition empty (q : t) : bool :=
  match _iq q with [] => true | _ :: _ => false end.

Definition size (q : t) : nat := length (_iq q).

(** [auto val = _iq.front(); _iq.pop(); return val;] — there is no test of
    [_iq.empty()]: [front()] of an empty [std::queue] is undefined. *)
Definition pop (q : t) : outcome (T * t) :=
  match _iq q with
  | [] => Undefined
  | val :: rest => Normal (val, {| _iq := rest; _cvar := _cvar q |})
  end.

(** [while (!_iq.empty()) { out.push_back(_iq.front()); _iq.pop(); }] *)
Fixpoint popAll_loop (iq out : list T) : list T * list T :=
  match iq with
  | [] => (out, iq)
  | front :: rest => popAll_loop rest (out ++ [front])
  end.

Definition popAll (q : t) : list T * t :=
  let '(out, iq) := popAll_loop (_iq q) [] in
  (out, {| _iq := iq; _cvar := _cvar q |}).

Definition push (msg : T) (notify : bool) (q : t) : t :=
  let q' := {| _iq := _iq q ++ [msg]; _cvar := _cvar q |} in
  if notify then notify_one q' else q'.

(** [std::copy(std::begin(iterable), std::end(iterable),
    std::back_inserter(_iq))], then the notification: one assignment
    through the back inserter per item, in iteration order.  [_iq] is a
    [std::queue]. *)
Definition pushAll (iterable : list T) (notify : bool) (q : t)
  : instantiation t :=
  match StdLib.back_inserter StdLib.std_queue with
  | Instantiates assign =>
      let q' := {| _iq := foldl assign (_iq q) iterable;
                   _cvar := _cvar q |} in
      Instantiates (if notify then notify_one q' else q')
  | IllFormed => IllFormed
  end.

(** *** Waiting

    A thread asleep in [_cvar.wait] gives up [_mtx]; when it wakes (by a
    notification or spuriously) it holds [_mtx] again and sees whatever
    the other threads left in [_iq].  A wake-up is that content; a timed
    wait also learns whether the deadline had passed. *)
Inductive cv_status : Type := no_timeout | timeout.

(** [_cvar.wait(lock, pred)] is [while (!pred()) wait(lock);].  The result
    is the number of times the thread slept and the queue content it
    returns on; [Blocked] when the wake-ups run out with [pred] false. *)
Fixpoint cv_wait (wakes : list (list T)) (iq : list T) (slept : nat)
  : outcome (nat * list T) :=
  match iq with
  | _ :: _ => Normal (slept, iq)
  | [] =>
      match wakes with
      | [] => Blocked
      | iq' :: wakes' => cv_wait wakes' iq' (S slept)
      end
  end.

Definition waitForMessages (wakes : list (list T)) (q : t)
  : outcome (nat * list T) :=
  if negb (empty q) then Normal (0, _iq q)
  else cv_wait wakes (_iq q) 0.

(** [_cvar.wait_for(lock, timeout, pred)] is
    [while (!pred()) if (wait_until(lock, deadline) == cv_status::timeout)
    return pred(); return true;]. *)
Fixpoint cv_wait_for (wakes : list (cv_status * list T)) (iq : list T)
    (slept : nat) : outcome (bool * nat * list T) :=
  match iq with
  | _ :: _ => Normal (true, slept, iq)
  | [] =>
      match wakes with
      | [] => Blocked
      | (timeout, iq') :: _ =>
          Normal (match iq' with [] => false | _ :: _ => true end,
                  S slept, iq')
      | (no_timeout, iq') :: wakes' => cv_wait_for wakes' iq' (S slept)
      end
  end.

Definition waitForMessages_timed (wakes : list (cv_status * list T))
    (q : t) : outcome (bool * nat * list T) :=
  if negb (empty q) then Normal (true, 0, _iq q)
  else cv_wait_for wakes (_iq q) 0.

(** *** Histories of calls *)

Inductive call : Type :=
| Push (msg : T) (notify : bool)
| Pop
| PopAll.

(** The messages a history pushes, in order. *)
Definition pushed (h : list call) : list T :=
  h ≫= λ c, match c with Push msg _ => [msg] | _ => [] end.

(** One call, on the queue and the messages handed out so far. *)
Definition step (c : call) (st : t * list T) : outcome (t * list T) :=
  let '(q, got) := st in
  match c with
  | Push msg notify => Normal (push msg notify q, got)
  | Pop => '(val, q') ← pop q; Normal (q', got ++ [val])
  | PopAll => let '(out, q') := popAll q in Normal (q', got ++ out)
  end.

Fixpoint run (h : list call) (st : t * list T) : outcome (t * list T) :=
  match h with
  | [] => Normal st
  | c :: h' => st' ← step c st; run h' st'
  end.

End queue.
Arguments t : clear implicits.
End SmartMessageQueue.

(** ** std::mutex *)

Module Mutex.

(** [locked]: some thread owns the mutex; [releases]: how many times
    [unlock()] has released it since it was constructed. *)
Record t : Type := mk { locked : bool; releases : nat }.

Definition new : t := {| locked := false; releases := 0 |}.

(** [lock()] returns once the mutex is free, and cannot while it is
    owned. *)
Definition lock (m : t) : outcome t :=
  if locked m then Blocked
  else Normal {| locked := true; releases := releases m |}.

(** [unlock()] of a mutex that is not owned is undefined. *)
Definition unlock (m : t) : outcome t :=
  if locked m then Normal {| locked := false; releases := S (releases m) |}
  else Undefined.

End Mutex.

(** ** The store

    [WrappingMutex] keeps its [T] behind a [std::shared_ptr] and hands a
    copy of that pointer and a reference to its mutex to each [Guard]: the
    objects and the mutexes live in a store, and the pointer and the
    reference are addresses into it.  Objects are never freed in the model
    (the pointer copies keep them alive in the source). *)

Module Store.
Section store.
Context {T : Type}.

Record t : Type := mk { objs : gmap nat T; mtxs : gmap nat Mutex.t }.

(** Computations on the store that may fail. *)
Definition M (A : Type) : Type := t → outcome (A * t).

#[global] Instance M_ret : MRet M := λ A a s, Normal (a, s).
#[global] Instance M_bind : MBind M := λ A B f m s,
  '(a, s') ← m s; f a s'.

(** [std::make_shared<T>(v)] *)
Definition make_shared (v : T) : M nat := λ s,
  let p := fresh (dom (objs s)) in
  Normal (p, {| objs := <[p := v]> (objs s); mtxs := mtxs s |}).

(** Construction of a [std::mutex] *)
Definition new_mutex : M nat := λ s,
  let a := fresh (dom (mtxs s)) in
  Normal (a, {| objs := objs s; mtxs := <[a := Mutex.new]> (mtxs s) |}).

(** [*p] as an rvalue; a dangling [p] is undefined. *)
Definition read (p : nat) : M T := λ s,
  match objs s !! p with
  | Some v => Normal (v, s)
  | None => Undefined
  end.

(** [*p = v] *)
Definition write (p : nat) (v : T) : M () := λ s,
  match objs s !! p with
  | Some _ => Normal ((), {| objs := <[p := v]> (objs s); mtxs := mtxs s |})
  | None => Undefined
  end.

Definition on_mutex (op : Mutex.t → outcome Mutex.t) (a : nat) : M () :=
  λ s,
  match mtxs s !! a with
  | Some m =>
      m' ← op m;
      Normal ((), {| objs := objs s; mtxs := <[a := m']> (mtxs s) |})
  | None => Undefined
  end.

Definition mutex_lock : nat → M () := on_mutex Mutex.lock.
Definition mutex_unlock : nat → M () := on_mutex Mutex.unlock.

End store.
Arguments t : clear implicits.
Arguments M : clear implicits.
End Store.

(** ** WrappingMutex *)

Module WrappingMutex.

Module Guard.
Section guard.
Context {T : Type}.

Record t : Type :=
  mk { data_ : nat; mutex_ : nat; alreadyUnlocked : bool }.

(** [Guard(std::shared_ptr<T> data, std::mutex& mutex)] *)
Definition ctor (data mutex : nat) : Store.M T t :=
  Store.mutex_lock mutex;;
  mret {| data_ := data; mutex_ := mutex; alreadyUnlocked := false |}.

(** [~Guard()] *)
Definition dtor (g : t) : Store.M T () :=
  if negb (alreadyUnlocked g) then Store.mutex_unlock (mutex_ g)
  else mret ().

(** [T& operator*()], read *)
Definition deref (g : t) : Store.M T T := Store.read (data_ g).

(** [Guard& operator=(const T& rhs)] *)
Definition assign (rhs : T) (g : t) : Store.M T t :=
  Store.write (data_ g) rhs;; mret g.

Definition unlock (g : t) : Store.M T t :=
  if negb (alreadyUnlocked g) then
    Store.mutex_unlock (mutex_ g);;
    mret {| data_ := data_ g; mutex_ := mutex_ g;
            alreadyUnlocked := true |}
  else mret g.

(** [n] calls of [unlock()] in a row *)
Fixpoint unlocks (n : nat) (g : t) : Store.M T t :=
  match n with
  | 0 => mret g
  | S n' => g' ← unlock g; unlocks n' g'
  end.

End guard.
End Guard.

Section wrapping_mutex.
Context {T : Type}.

(** [data_] is the [std::shared_ptr<T>], [mutex_] the address of the
    member [std::mutex]. *)
Record t : Type := mk { data_ : nat; mutex_ : nat }.

(** [WrappingMutex(): data_(std::make_shared<T>()), mutex_() {}], where
    [T_init] is the value-initialised [T]. *)
Definition ctor_default (T_init : T) : Store.M T t :=
  data ← Store.make_shared T_init;
  mutex ← Store.new_mutex;
  mret {| data_ := data; mutex_ := mutex |}.

(** [WrappingMutex(T obj) : data_(std::make_shared(obj)), mutex_() {}]:
    the call of [std::make_shared] spells out no template argument. *)
Definition ctor (obj : T) : instantiation (Store.M T t) :=
  if StdLib.call_instantiates StdLib.make_shared 0 then
    Instantiates (data ← Store.make_shared obj;
                  mutex ← Store.new_mutex;
                  mret {| data_ := data; mutex_ := mutex |})
  else IllFormed.

(** [return Guard(data_, mutex_);] *)
Definition lock (w : t) : Store.M T Guard.t :=
  Guard.ctor (data_ w) (mutex_ w).

(** The store after a guard on [w] has come and gone: one more release
    of [w]'s mutex [m], which is free again, and nothing else touched. *)
Definition released_once (w : t) (s : Store.t T) (m : Mutex.t)
  : Store.t T :=
  {| Store.objs := Store.objs s;
     Store.mtxs := <[mutex_ w := {| Mutex.locked := false;
                                    Mutex.releases := S (Mutex.releases m) |}]>
                     (Store.mtxs s) |}.

End wrapping_mutex.
End WrappingMutex.

(** ** RelaxedAtomic *)

Module RelaxedAtomic.

Inductive memory_order : Type :=
| relaxed | consume | acquire | release | acq_rel | seq_cst.

Section relaxed_atomic.
Context {T : Type}.

(** [std::atomic<T> value;] — a load or a store of it is one indivisible
    step. *)
Record t : Type := mk { value : T }.

(** [RelaxedAtomic(T initial = {}) : value(initial) {}] *)
Definition ctor (initial : T) : t := {| value := initial |}.

(** The orders [std::atomic] takes: a load must not be given [release] or
    [acq_rel], a store must not be given [consume], [acquire] or
    [acq_rel]. *)
Definition load_order_ok (order : memory_order) : bool :=
  match order with
  | relaxed | consume | acquire | seq_cst => true
  | release | acq_rel => false
  end.

Definition store_order_ok (order : memory_order) : bool :=
  match order with
  | relaxed | release | seq_cst => true
  | consume | acquire | acq_rel => false
  end.

(** [load(order)] and [store(val, order)] pass the order on to
    [value.load] and [value.store]: with an order the operation does not
    take the call is undefined; with any other it reads, or writes, the
    one cell. *)
Definition load_order (order : memory_order) (a : t) : outcome T :=
  if load_order_ok order then Normal (value a) else Undefined.

Definition store_order (val : T) (order : memory_order) (a : t)
  : outcome t :=
  if store_order_ok order then Normal {| value := val |} else Undefined.

(** [load()] and [store(val)], with the default argument
    [std::memory_order::relaxed], an order both operations take: the calls
    return. *)
Definition load (a : t) : T := value a.
Definition store (val : T) (a : t) : t := {| value := val |}.

(** Stores in a row, each with its order. *)
Fixpoint stores (ws : list (T * memory_order)) (a : t) : outcome t :=
  match ws with
  | [] => Normal a
  | (val, order) :: ws' => a' ← store_order val order a; stores ws' a'
  end.

(** [operator T() const] *)
Definition to_T (a : t) : T := load a.

(** [RelaxedAtomic<T>& operator=(T val)] *)
Definition assign (val : T) (a : t) : t := store val a.

(** [RelaxedAtomic(RelaxedAtomic<T>& other) { this->store(other.load()); }]
    — [value] has no initialiser here: [fresh] is what the new object
    holds before the store. *)
Definition copy_ctor (fresh : T) (other : t) : t :=
  let loaded := load other in
  store loaded {| value := fresh |}.

(** The same two steps with the stores [writes] of other threads to
    [other] landing after the load and before the store.  The result is
    the new object and [other] as it is when the constructor returns. *)
Definition copy_ctor_racing (fresh : T) (writes : list T) (other : t)
  : t * t :=
  let loaded := load other in
  let other' := foldl (λ a w, store w a) other writes in
  (store loaded {| value := fresh |}, other').

End relaxed_atomic.
Arguments t : clear implicits.
End RelaxedAtomic.

(** ** Copy and move of a class

    Whether an object of a class can be copied or moved is fixed by how the
    class declares its special member functions.  The table of a class
    records, for each of them, what the class body says. *)

Module SpecialMembers.

Inductive decl : Type :=
| not_declared   (* the class body does not mention it *)
| deleted        (* [= delete] *)
| defaulted      (* [= default] *)
| user_provided. (* declared with a body *)

Record t : Type := mk {
  copy_ctor : decl;
  copy_assign : decl;
  move_ctor : decl;
  move_assign : decl;
  dtor : decl
}.

Definition user_declared (d : decl) : bool :=
  match d with not_declared => false | _ => true end.

(** A move constructor is declared implicitly only in a class that
    declares no copy constructor, no copy assignment, no move assignment
    and no destructor of its own. *)
Definition implicit_move_ctor (c : t) : bool :=
  negb (user_declared (copy_ctor c) || user_declared (copy_assign c)
        || user_declared (move_assign c) || user_declared (dtor c)).

Definition implicit_move_assign (c : t) : bool :=
  negb (user_declared (copy_ctor c) || user_declared (copy_assign c)
        || user_declared (move_ctor c) || user_declared (dtor c)).

(** The implicit copy operations are deleted in a class that declares a
    move operation. *)
Definition copy_constructible (c : t) : bool :=
  match copy_ctor c with
  | not_declared =>
      negb (user_declared (move_ctor c) || user_declared (move_assign c))
  | deleted => false
  | defaulted | user_provided => true
  end.

Definition copy_assignable (c : t) : bool :=
  match copy_assign c with
  | not_declared =>
      negb (user_declared (move_ctor c) || user_declared (move_assign c))
  | deleted => false
  | defaulted | user_provided => true
  end.

(** Construction from an rvalue of the class: the move constructor when
    there is one, declared or implicit; otherwise overload resolution
    settles on the copy constructor, whose [const&] parameter binds to the
    rvalue, and the construction is ill-formed when that one is deleted. *)
Definition move_constructible (c : t) : bool :=
  match move_ctor c with
  | not_declared =>
      if implicit_move_ctor c then true else copy_constructible c
  | deleted => false
  | defaulted | user_provided => true
  end.

Definition move_assignable (c : t) : bool :=
  match move_assign c with
  | not_declared =>
      if implicit_move_assign c then true else copy_assignable c
  | deleted => false
  | defaulted | user_provided => true
  end.

(** [class Guard]: [Guard(const Guard&) = delete;],
    [Guard& operator=(const Guard&) = delete;], [~Guard() { ... }], and no
    declaration that takes a [Guard&&]. *)
Definition Guard : t :=
  {| copy_ctor := deleted; copy_assign := deleted;
     move_ctor := not_declared; move_assign := not_declared;
     dtor := user_provided |}.

End SpecialMembers.

(** The calls of [push] with [notify] set in a history. *)
Definition notifying_pushes {T} (h : list (@SmartMessageQueue.call T)) : nat :=
  length (h ≫= λ c, match c with
                    | SmartMessageQueue.Push _ true => [()]
                    | _ => []
                    end).

(** * Managers and the user interface *)

(** ** GlobedNameLabel ([ui/general/name_label.cpp])

    The node keeps two widget pointers, [label] and [badge], and its list
    of children.  A badge sprite is known by its address.  Of a widget the
    model keeps what this class sets on it: the text, the opacity and the
    colour the label is tinted to, and the opacity of the badge.  Sizes,
    z order and layout are the engine's. *)

Module GlobedNameLabel.
Section name_label.
Context {RichColor : Type}.

Inductive child : Type := LabelChild | BadgeChild (sprite : nat).

#[global] Instance child_eq_dec : EqDecision child.
Proof. solve_decision. Defined.

Record CCLabelBMFont : Type :=
  mk_label { text : list N; opacity : option N; tint : option RichColor }.

Record t : Type := mk {
  label : option CCLabelBMFont;
  badge : option (nat * option N);
  children : list child
}.

(** A new [GlobedNameLabel]: both pointers null, no children. *)
Definition new : t := {| label := None; badge := None; children := [] |}.

(** [name.c_str()] read as a C string: the bytes before the first [0]. *)
Fixpoint c_str (name : list N) : list N :=
  match name with
  | [] => []
  | c :: name' => if (c =? 0)%N then [] else c :: c_str name'
  end.

(** [updateName] of a C string: the label is created with an empty text
    and added as a child when there is none yet, then given the name. *)
Definition updateName_c (name : list N) (n : t) : t :=
  let n1 :=
    match label n with
    | Some _ => n
    | None =>
        {| label := Some {| text := []; opacity := None; tint := None |};
           badge := badge n;
           children := children n ++ [LabelChild] |}
    end in
  {| label := (λ l, {| text := name; opacity := opacity l; tint := tint l |})
              <$> label n1;
     badge := badge n1; children := children n1 |}.

(** [updateName] of a [std::string] *)
Definition updateName (name : list N) (n : t) : t :=
  updateName_c (c_str name) n.

(** [updateBadge]: the old badge leaves the node, the new one, when there
    is one, joins it. *)
Definition updateBadge (badgeSprite : option nat) (n : t) : t :=
  let removed :=
    match badge n with
    | Some (old, _) => filter (λ c, c ≠ BadgeChild old) (children n)
    | None => children n
    end in
  match badgeSprite with
  | Some sprite =>
      {| label := label n; badge := Some (sprite, None);
         children := removed ++ [BadgeChild sprite] |}
  | None => {| label := label n; badge := None; children := removed |}
  end.

(** [updateColor]: nothing without a label. *)
Definition updateColor (color : RichColor) (n : t) : t :=
  match label n with
  | None => n
  | Some l =>
      {| label := Some {| text := text l; opacity := opacity l;
                          tint := Some color |};
         badge := badge n; children := children n |}
  end.

(** [updateOpacity(unsigned char)] *)
Definition updateOpacity (o : N) (n : t) : t :=
  {| label := (λ l, {| text := text l; opacity := Some o; tint := tint l |})
              <$> label n;
     badge := (λ b, (b.1, Some o)) <$> badge n;
     children := children n |}.

(** [updateData(name, badgeSprite, nameColor)] *)
Definition updateData (name : list N) (badgeSprite : option nat)
    (nameColor : RichColor) (n : t) : t :=
  updateColor nameColor (updateBadge badgeSprite (updateName name n)).

(** [init]; [node_init] is what [CCNode::init] answers.  The result is
    what [init] returns and the node as it leaves it. *)
Definition init (node_init : bool) (name : list N)
    (badgeSprite : option nat) (nameColor : RichColor) (n : t) : bool * t :=
  if negb node_init then (false, n)
  else (true, updateData name badgeSprite nameColor n).

(** [create(name, badgeSprite, nameColor)]: [None] is [nullptr]. *)
Definition create (node_init : bool) (name : list N)
    (badgeSprite : option nat) (nameColor : RichColor) : option t :=
  let '(ok, ret) := init node_init name badgeSprite nameColor new in
  if ok then Some ret else None.

(** The calls that update a label. *)
Inductive call : Type :=
| UpdateName (name : list N)
| UpdateBadge (badgeSprite : option nat)
| UpdateColor (color : RichColor)
| UpdateOpacity (o : N)
| UpdateData (name : list N) (badgeSprite : option nat)
    (nameColor : RichColor).

Definition step (n : t) (c : call) : t :=
  match c with
  | UpdateName name => updateName name n
  | UpdateBadge badgeSprite => updateBadge badgeSprite n
  | UpdateColor color => updateColor color n
  | UpdateOpacity o => updateOpacity o n
  | UpdateData name badgeSprite nameColor =>
      updateData name badgeSprite nameColor n
  end.

Definition run (h : list call) (n : t) : t := foldl step n h.

(** The children a node with these two pointers should have. *)
Definition expected_children (n : t) : list child :=
  match label n with Some _ => [LabelChild] | None => [] end
  ++ match badge n with Some (sprite, _) => [BadgeChild sprite] | None => [] end.

(** The children of the node are its label and its badge, each once (in
    the order the engine keeps them in). *)
Definition well_formed (n : t) : Prop := children n ≡ₚ expected_children n.

End name_label.
Arguments t : clear implicits.
Arguments call : clear implicits.
Arguments CCLabelBMFont : clear implicits.
End GlobedNameLabel.


(** ** AdminManager ([managers/admin.cpp]) *)

Module AdminManager.
Section admin_manager.
Context {ComputedRole ServerRole : Type}.

(** [ComputedRole{}], the value [role = {}] assigns. *)
Variable role_init : ComputedRole.

Record t : Type :=
  mk { authorized_ : bool; role : ComputedRole; allRoles : list ServerRole }.

Definition authorized (a : t) : bool := authorized_ a.

Definition setAuthorized (role' : ComputedRole) (allRoles' : list ServerRole)
    (a : t) : t :=
  {| authorized_ := true; role := role'; allRoles := allRoles' |}.

Definition deauthorize (a : t) : t :=
  {| authorized_ := false; role := role_init; allRoles := allRoles a |}.

Definition getRole (a : t) : ComputedRole := role a.
Definition getAllRoles (a : t) : list ServerRole := allRoles a.

(** Histories of the two calls that change the manager. *)
Inductive call : Type :=
| SetAuthorized (role' : ComputedRole) (allRoles' : list ServerRole)
| Deauthorize.

Definition step (a : t) (c : call) : t :=
  match c with
  | SetAuthorized role' allRoles' => setAuthorized role' allRoles' a
  | Deauthorize => deauthorize a
  end.

Definition run (h : list call) (a : t) : t := foldl step a h.

(** The arguments of the calls of [setAuthorized] in a history. *)
Definition authorizations (h : list call)
  : list (ComputedRole * list ServerRole) :=
  h ≫= λ c, match c with
            | SetAuthorized role' allRoles' => [(role', allRoles')]
            | Deauthorize => []
            end.

End admin_manager.
Arguments t : clear implicits.
Arguments call : clear implicits.
End AdminManager.

(** ** GlobedSettings ([managers/settings.hpp])

    The private helpers over the mod's saved values.  The saved values are
    the key-value container of the mod loader: [setSavedValue] binds a key,
    [hasSavedValue] tells whether a key is bound and [getSavedValue<T>]
    reads a bound key (and gives [T{}] for an unbound one). *)

Module GlobedSettings.
Section settings.
Context {T : Type}.

(** [T{}] *)
Variable T_init : T.

Definition store (key : string) (val : T) (saved : gmap string T)
  : gmap string T :=
  <[key := val]> saved.

Definition has (key : string) (saved : gmap string T) : bool :=
  bool_decide (is_Some (saved !! key)).

Definition load (key : string) (saved : gmap string T) : T :=
  default T_init (saved !! key).

(** [if (this->has(key)) { into = this->load<T>(key); }]: the result is
    what [into] holds afterwards. *)
Definition loadOptionalInto (key : string) (into : T)
    (saved : gmap string T) : T :=
  if has key saved then load key saved else into.

(** [return this->has(key) ? this->load<T>(key) : defaultval;] *)
Definition loadOrDefault (key : string) (defaultval : T)
    (saved : gmap string T) : T :=
  if has key saved then load key saved else defaultval.

End settings.
End GlobedSettings.

(** ** InvitePopup ([ui/menu/room/invite_popup.cpp]) *)

Module InvitePopup.

(** A [std::string] is the list of its bytes, as [unsigned char] values. *)
Abbreviation std_string := (list N) (only parsing).

Definition bytes (s : string) : std_string :=
  N_of_ascii <$> list_ascii_of_string s.

(** [::tolower], in the "C" locale: the letters [A]-[Z] go to [a]-[z]. *)
Definition tolower (c : N) : N :=
  if ((65 <=? c) && (c <=? 90))%N then (c + 32)%N else c.

(** [std::transform(name.begin(), name.end(), name.begin(), ::tolower)] *)
Definition lowercase (name : std_string) : std_string := tolower <$> name.

(** [operator<] of [std::string]: lexicographic, byte by byte. *)
Fixpoint lex_ltb (a b : std_string) : bool :=
  match a, b with
  | _, [] => false
  | [], _ :: _ => true
  | x :: a', y :: b' =>
      if (x <? y)%N then true
      else if (x =? y)%N then lex_ltb a' b'
      else false
  end.

(** [pat] starts [s] *)
Fixpoint starts_with (pat s : std_string) : bool :=
  match pat, s with
  | [], _ => true
  | _ :: _, [] => false
  | x :: pat', y :: s' => (x =? y)%N && starts_with pat' s'
  end.

(** [s.find(pat)], counted from [pos]: the first position at which [pat]
    occurs in [s]; [None] is [std::string::npos]. *)
Fixpoint find_from (pos : nat) (s pat : std_string) : option nat :=
  if starts_with pat s then Some pos
  else match s with
       | [] => None
       | _ :: s' => find_from (S pos) s' pat
       end.

Definition find (s pat : std_string) : option nat := find_from 0 s pat.

(** What [std::sort] asks of the comparison it is given: a strict weak
    ordering, that is irreflexive, transitive, and with "neither before the
    other" transitive. *)
Definition strict_weak_order {A} (cmp : A → A → bool) : Prop :=
  (∀ x, cmp x x = false) ∧
  (∀ x y z, cmp x y = true → cmp y z = true → cmp x z = true) ∧
  (∀ x y z, cmp x y = false → cmp y x = false →
            cmp y z = false → cmp z y = false →
            cmp x z = false ∧ cmp z x = false).

(** What [std::sort] promises in return: the same elements, and no element
    before one that the comparison puts before it.  The order of elements
    that tie is left open. *)
Definition std_sort_spec {A} (sort : (A → A → bool) → list A → list A)
  : Prop :=
  ∀ cmp l, strict_weak_order cmp →
    sort cmp l ≡ₚ l ∧ StronglySorted (λ x y, cmp y x = false) (sort cmp l).

(** One such algorithm. *)
Definition merge_std_sort {A} (cmp : A → A → bool) (l : list A) : list A :=
  @merge_sort A (λ x y, cmp y x = false)
    (λ x y, bool_eq_dec (cmp y x) false) l.

Section invite_popup.
(** What a [PlayerPreviewAccountData] holds besides its id and name. *)
Context {Rest : Type}.

Record PlayerPreviewAccountData : Type :=
  mk_player { accountId : Z; name : std_string; rest : Rest }.

(** [FriendListManager::isFriend] *)
Variable isFriend : Z → bool.

(** [std::sort]: any algorithm that meets the postcondition of the
    standard; the properties below say what they need of it. *)
Variable std_sort :
  (PlayerPreviewAccountData → PlayerPreviewAccountData → bool) →
  list PlayerPreviewAccountData → list PlayerPreviewAccountData.

(** [util::format::toLowercase] *)
Variable toLowercase : std_string → std_string.

(** The fields of the popup the functions below read and write.  A widget
    pointer is kept as whether it is set ([loadingCircle], [roomBtnMenu]);
    [clearSearchButton_shown] is whether the clear-search button is a child
    of the button menu; [cells] is the players the list view shows, in
    order; [sent] counts the [RequestGlobalPlayerListPacket]s sent and
    [closed] is whether [onClose] has been called.  The scroll offset of
    the list view is left to the engine. *)
Record t : Type := mk {
  playerList : list PlayerPreviewAccountData;
  filteredPlayerList : list PlayerPreviewAccountData;
  isWaiting : bool;
  loadingCircle : bool;
  roomBtnMenu : bool;
  clearSearchButton_shown : bool;
  cells : list PlayerPreviewAccountData;
  sent : nat;
  closed : bool
}.

(** The comparison [sortPlayerList] sorts by. *)
Definition comp (p1 p2 : PlayerPreviewAccountData) : bool :=
  let isFriend1 := isFriend (accountId p1) in
  let isFriend2 := isFriend (accountId p2) in
  if negb (eqb isFriend1 isFriend2) then isFriend1
  else lex_ltb (lowercase (name p1)) (lowercase (name p2)).

(** [erase(remove_if(...))] keeps the players whose id is not [0], in
    their order; [std::sort] then orders them by [comp]. *)
Definition sortPlayerList (p : t) : t :=
  let kept := filter (λ player, accountId player ≠ 0%Z)
                (filteredPlayerList p) in
  {| playerList := playerList p;
     filteredPlayerList := std_sort comp kept;
     isWaiting := isWaiting p; loadingCircle := loadingCircle p;
     roomBtnMenu := roomBtnMenu p;
     clearSearchButton_shown := clearSearchButton_shown p;
     cells := cells p; sent := sent p; closed := closed p |}.

(** The two loops of [applyFilter]: a [push_back] per item kept. *)
Definition push_back_all (l : list PlayerPreviewAccountData)
  : list PlayerPreviewAccountData :=
  foldl (λ out item, out ++ [item]) [] l.

Definition push_back_matching (filt : std_string)
    (l : list PlayerPreviewAccountData) : list PlayerPreviewAccountData :=
  foldl (λ out item,
           match find (toLowercase (name item)) filt with
           | Some _ => out ++ [item]
           | None => out
           end) [] l.

Definition applyFilter (input : std_string) (p : t) : t :=
  match input with
  | [] =>
      {| playerList := playerList p;
         filteredPlayerList := push_back_all (playerList p);
         isWaiting := isWaiting p; loadingCircle := loadingCircle p;
         roomBtnMenu := roomBtnMenu p;
         clearSearchButton_shown := false;
         cells := cells p; sent := sent p; closed := closed p |}
  | _ :: _ =>
      let filt := toLowercase input in
      {| playerList := playerList p;
         filteredPlayerList := push_back_matching filt (playerList p);
         isWaiting := isWaiting p; loadingCircle := loadingCircle p;
         roomBtnMenu := roomBtnMenu p;
         clearSearchButton_shown := true;
         cells := cells p; sent := sent p; closed := closed p |}
  end.

Definition removeLoadingCircle (p : t) : t :=
  if loadingCircle p then
    {| playerList := playerList p;
       filteredPlayerList := filteredPlayerList p;
       isWaiting := isWaiting p; loadingCircle := false;
       roomBtnMenu := roomBtnMenu p;
       clearSearchButton_shown := clearSearchButton_shown p;
       cells := cells p; sent := sent p; closed := closed p |}
  else p.

Definition isLoading (p : t) : bool := loadingCircle p.

(** [addButtons]: the old button menu goes, a new one is stored. *)
Definition addButtons (p : t) : t :=
  {| playerList := playerList p;
     filteredPlayerList := filteredPlayerList p;
     isWaiting := isWaiting p; loadingCircle := loadingCircle p;
     roomBtnMenu := true;
     clearSearchButton_shown := clearSearchButton_shown p;
     cells := cells p; sent := sent p; closed := closed p |}.

(** [onLoaded]: one cell per filtered player, in order, in a new list
    view. *)
Definition onLoaded (stateChanged : bool) (p : t) : t :=
  let p1 := removeLoadingCircle p in
  let p2 :=
    {| playerList := playerList p1;
       filteredPlayerList := filteredPlayerList p1;
       isWaiting := isWaiting p1; loadingCircle := loadingCircle p1;
       roomBtnMenu := roomBtnMenu p1;
       clearSearchButton_shown := clearSearchButton_shown p1;
       cells := foldl (λ cells pdata, cells ++ [pdata]) []
                  (filteredPlayerList p1);
       sent := sent p1; closed := closed p1 |} in
  if stateChanged then addButtons p2 else p2.

(** [reloadPlayerList(sendPacket)]; [established] is what
    [NetworkManager::established] answers when it is called. *)
Definition reloadPlayerList (established sendPacket : bool) (p : t) : t :=
  if negb established then
    {| playerList := playerList p;
       filteredPlayerList := filteredPlayerList p;
       isWaiting := isWaiting p; loadingCircle := loadingCircle p;
       roomBtnMenu := roomBtnMenu p;
       clearSearchButton_shown := clearSearchButton_shown p;
       cells := cells p; sent := sent p; closed := true |}
  else
    let p1 := removeLoadingCircle p in
    let send := sendPacket && negb (isWaiting p1) in
    {| playerList := playerList p1;
       filteredPlayerList := filteredPlayerList p1;
       isWaiting := if send then true else isWaiting p1;
       loadingCircle := true;
       roomBtnMenu := roomBtnMenu p1;
       clearSearchButton_shown := clearSearchButton_shown p1;
       cells := cells p1;
       sent := if send then S (sent p1) else sent p1;
       closed := closed p1 |}.

(** The listener [setup] registers for [GlobalPlayerListPacket]. *)
Definition onGlobalPlayerList (data : list PlayerPreviewAccountData)
    (p : t) : t :=
  let p1 :=
    {| playerList := data;
       filteredPlayerList := filteredPlayerList p;
       isWaiting := false; loadingCircle := loadingCircle p;
       roomBtnMenu := roomBtnMenu p;
       clearSearchButton_shown := clearSearchButton_shown p;
       cells := cells p; sent := sent p; closed := closed p |} in
  let p2 := sortPlayerList (applyFilter [] p1) in
  onLoaded (negb (roomBtnMenu p2)) p2.

(** The callbacks of the search and clear-search buttons. *)
Definition onSearch (input : std_string) (p : t) : t :=
  onLoaded true (sortPlayerList (applyFilter input p)).

Definition onClearSearch (p : t) : t :=
  onLoaded true (sortPlayerList (applyFilter [] p)).

(** What can happen to an open popup. *)
Inductive event : Type :=
| Reload (established sendPacket : bool)
| GlobalPlayerList (data : list PlayerPreviewAccountData)
| Search (input : std_string)
| ClearSearch.

Definition handle (p : t) (e : event) : t :=
  match e with
  | Reload established sendPacket => reloadPlayerList established sendPacket p
  | GlobalPlayerList data => onGlobalPlayerList data p
  | Search input => onSearch input p
  | ClearSearch => onClearSearch p
  end.

Definition run (h : list event) (p : t) : t := foldl handle p h.

(** The player lists received in a history. *)
Definition received (h : list event)
  : list (list PlayerPreviewAccountData) :=
  h ≫= λ e, match e with GlobalPlayerList data => [data] | _ => [] end.

End invite_popup.
Arguments PlayerPreviewAccountData : clear implicits.
Arguments t : clear implicits.
Arguments event : clear implicits.
End InvitePopup.

(** ** Scenarios *)

(** A store with nothing in it. *)
Definition store0 : Store.t nat := {| Store.objs := ∅; Store.mtxs := ∅ |}.

(** A store in which one [WrappingMutex<nat>] protects the value [5], its
    mutex free, and that [WrappingMutex]. *)
Definition store1 : Store.t nat :=
  {| Store.objs := {[0 := 5]}; Store.mtxs := {[0 := Mutex.new]} |}.
Definition wm1 : WrappingMutex.t :=
  {| WrappingMutex.data_ := 0; WrappingMutex.mutex_ := 0 |}.

(** Four players, one without an account, and a friend list holding the
    accounts [3] and [4]. *)
Definition players : list (InvitePopup.PlayerPreviewAccountData unit) :=
  [InvitePopup.mk_player 1 (InvitePopup.bytes "bob") ();
   InvitePopup.mk_player 0 (InvitePopup.bytes "ghost") ();
   InvitePopup.mk_player 3 (InvitePopup.bytes "Zed") ();
   InvitePopup.mk_player 2 (InvitePopup.bytes "Alice") ();
   InvitePopup.mk_player 4 (InvitePopup.bytes "carol") ()].

Definition friends (accountId : Z) : bool :=
  bool_decide (accountId = 3 ∨ accountId = 4)%Z.

(** An open popup that has shown nothing yet. *)
Definition popup0 : InvitePopup.t unit :=
  {| InvitePopup.playerList := players;
     InvitePopup.filteredPlayerList := players;
     InvitePopup.isWaiting := false; InvitePopup.loadingCircle := false;
     InvitePopup.roomBtnMenu := false;
     InvitePopup.clearSearchButton_shown := false;
     InvitePopup.cells := []; InvitePopup.sent := 0;
     InvitePopup.closed := false |}.

(** Two [unlock()] calls on the guard of a new [WrappingMutex<nat>]. *)
Definition double_unlock : Store.M nat WrappingMutex.Guard.t :=
  w ← WrappingMutex.ctor_default 0;
  g ← WrappingMutex.lock w;
  g1 ← WrappingMutex.Guard.unlock g;
  WrappingMutex.Guard.unlock g1.

(** * Properties *)

(** ** SmartMessageQueue *)

Section queue_props.
Import SmartMessageQueue.
Context {T : Type}.
Implicit Types (q : SmartMessageQueue.t T) (iq out : list T).

Lemma popAll_loop_spec iq out : popAll_loop iq out = (out ++ iq, []).
Proof.
  revert out. induction iq as [|x iq IH]; intros out; simpl.
  - by rewrite app_nil_r.
  - rewrite IH. by rewrite <- app_assoc.
Qed.

Lemma popAll_spec q :
  popAll q = (_iq q, {| _iq := []; _cvar := _cvar q |}).
Proof. unfold popAll. by rewrite popAll_loop_spec. Qed.

Lemma _iq_push (msg : T) notify q :
  _iq (push msg notify q) = _iq q ++ [msg].
Proof. unfold push. by destruct notify. Qed.

Lemma _iq_pushes (ps : list (T * bool)) q :
  _iq (foldl (λ q p, push p.1 p.2 q) q ps) = _iq q ++ ps.*1.
Proof.
  revert q. induction ps as [|[m n] ps IH]; intros q; simpl.
  - by rewrite app_nil_r.
  - rewrite IH, _iq_push. by rewrite <- app_assoc.
Qed.

(** Handed out, then still pending: always what was there at the start
    followed by what was pushed. *)
Lemma run_conserves (h : list call) q q' (got got' : list T) :
  run h (q, got) = Normal (q', got') →
  got' ++ _iq q' = got ++ _iq q ++ pushed h.
Proof.
  revert q got. induction h as [|c h IH]; intros q got Hrun.
  - simpl in Hrun. injection Hrun as <- <-. by rewrite app_nil_r.
  - destruct c as [msg notify| |]; simpl in Hrun.
    + apply IH in Hrun. rewrite Hrun, _iq_push.
      change (pushed (Push msg notify :: h)) with (msg :: pushed h).
      by rewrite <- (app_assoc (_iq q)).
    + unfold pop in Hrun. destruct (_iq q) as [|val rest] eqn:Hq; [done|].
      apply IH in Hrun. simpl in Hrun. rewrite Hrun.
      change (pushed (Pop :: h)) with (pushed h).
      by rewrite <- app_assoc.
    + rewrite popAll_spec in Hrun. apply IH in Hrun. simpl in Hrun.
      rewrite Hrun. change (pushed (PopAll :: h)) with (pushed h).
      by rewrite <- app_assoc.
Qed.

(** A history returns as soon as none of its [pop]s meets an empty queue:
    [run] stops short only there. *)
Lemma run_stuck_only_at_pop (h : list call) q (got : list T) :
  returns (run h (q, got)) ∨ run h (q, got) = Undefined.
Proof.
  revert q got. induction h as [|c h IH]; intros q got.
  - left. by eexists.
  - destruct c as [msg notify| |]; simpl.
    + apply IH.
    + unfold pop. destruct (_iq q); [by right | apply IH].
    + rewrite popAll_spec. apply IH.
Qed.

(** C1. [popAll] hands out everything that is pending, front first, and
    leaves the queue empty; after any pushes [m1 .. mn] (whatever their
    [notify] flags) it lists [m1 .. mn] behind what was pending before,
    and exactly [m1 .. mn] on a new queue. *)
Theorem popAll_fifo q (ps : list (T * bool)) :
  (popAll q).1 = _iq q ∧
  _iq (popAll q).2 = [] ∧
  empty (popAll q).2 = true ∧
  (popAll (foldl (λ q p, push p.1 p.2 q) q ps)).1 = _iq q ++ ps.*1 ∧
  (popAll (foldl (λ q p, push p.1 p.2 q) new ps)).1 = ps.*1.
Proof.
  rewrite !popAll_spec, !_iq_pushes. simpl. done.
Qed.

(** C9. [popAll] needs no pending message, where [pop] does: on an empty
    queue, on which [pop] is undefined, it returns the empty sequence, and
    the queue it leaves is the queue it found. *)
Theorem popAll_empty q :
  empty q = true → popAll q = ([], q) ∧ pop q = Undefined.
Proof.
  unfold empty, pop. destruct q as [iq n]; simpl.
  destruct iq; [|done]. intros _. by rewrite popAll_spec.
Qed.

(** C3. [pushAll] appends nothing and notifies no one, because there is no
    [pushAll] to call: its body assigns through [std::back_inserter(_iq)],
    and that assignment calls [push_back], which the [std::queue] [_iq]
    does not have (it has [push]).  For every iterable, every [notify] and
    every queue the call is ill-formed. *)
Theorem pushAll_ill_formed (iterable : list T) (notify : bool) q :
  StdLib.has_member StdLib.std_queue StdLib.push_back = false ∧
  StdLib.has_member StdLib.std_queue StdLib.push = true ∧
  pushAll iterable notify q = IllFormed.
Proof. split_and!; reflexivity. Qed.

(** C2. In a history of [push], [pop] and [popAll] on a new queue in
    which no [pop] meets an empty queue, the messages handed out together
    with those still pending are, as a multiset, the messages pushed
    (indeed they are the same sequence): none is lost, none comes
    twice. *)
Theorem no_loss_no_duplication (h : list call) q' (got : list T) :
  run h (new, []) = Normal (q', got) →
  got ++ _iq q' ≡ₚ pushed h ∧ got ++ _iq q' = pushed h.
Proof.
  intros Hrun. apply run_conserves in Hrun. simpl in Hrun.
  by rewrite Hrun.
Qed.

End queue_props.

Example popAll_three :
  SmartMessageQueue.popAll (SmartMessageQueue.mk [1; 2; 3] 2)
  = ([1; 2; 3], SmartMessageQueue.mk [] 2).
Proof. reflexivity. Qed.

Example pushAll_two :
  SmartMessageQueue.pushAll [8; 9] true (SmartMessageQueue.mk [7] 0)
  = IllFormed.
Proof. reflexivity. Qed.

Example pop_empty_undefined :
  SmartMessageQueue.pop (T:=nat) SmartMessageQueue.new = Undefined.
Proof. reflexivity. Qed.

Lemma popAll_empty_witness :
  SmartMessageQueue.empty (T:=nat) SmartMessageQueue.new = true ∧
  SmartMessageQueue.popAll (T:=nat) SmartMessageQueue.new
  = ([], SmartMessageQueue.new).
Proof.
  split; [reflexivity|].
  apply (popAll_empty (SmartMessageQueue.new (T:=nat))). reflexivity.
Defined.

Lemma no_loss_no_duplication_witness :
  let h := [SmartMessageQueue.Push 1 true; SmartMessageQueue.Push 2 false;
            SmartMessageQueue.Pop; SmartMessageQueue.Push 3 true;
            SmartMessageQueue.PopAll; SmartMessageQueue.Push 4 true] in
  SmartMessageQueue.run h (SmartMessageQueue.new, [])
  = Normal (SmartMessageQueue.mk [4] 3, [1; 2; 3]) ∧
  [1; 2; 3] ++ [4] ≡ₚ SmartMessageQueue.pushed h.
Proof.
  split; [reflexivity|].
  apply (no_loss_no_duplication
           [SmartMessageQueue.Push 1 true; SmartMessageQueue.Push 2 false;
            SmartMessageQueue.Pop; SmartMessageQueue.Push 3 true;
            SmartMessageQueue.PopAll; SmartMessageQueue.Push 4 true]
           (SmartMessageQueue.mk [4] 3) [1; 2; 3]).
  reflexivity.
Defined.

(** *** Waiting for messages *)

Section wait_props.
Import SmartMessageQueue.
Context {T : Type}.
Implicit Types (q : SmartMessageQueue.t T) (iq : list T).

Lemma empty_iff q : empty q = true ↔ _iq q = [].
Proof. unfold empty. destruct (_iq q); split; done. Qed.

Lemma cv_wait_nonempty (wakes : list (list T)) x iq k :
  cv_wait wakes (x :: iq) k = Normal (k, x :: iq).
Proof. by destruct wakes. Qed.

Lemma cv_wait_for_nonempty (wakes : list (cv_status * list T)) x iq k :
  cv_wait_for wakes (x :: iq) k = Normal (true, k, x :: iq).
Proof. by destruct wakes. Qed.

Lemma cv_wait_returns_nonempty (wakes : list (list T)) iq k n iq' :
  cv_wait wakes iq k = Normal (n, iq') → iq' ≠ [].
Proof.
  revert iq k. induction wakes as [|w wakes IH]; intros iq k;
    destruct iq as [|x iq]; simpl; try done.
  - by intros [= _ <-].
  - apply IH.
  - by intros [= _ <-].
Qed.

(** The wait sleeps through every wake-up that finds [_iq] empty and
    returns at the first one that does not. *)
Lemma cv_wait_first_nonempty (wakes : list (list T)) k m iq' :
  (∀ i, i < m → wakes !! i = Some []) →
  wakes !! m = Some iq' → iq' ≠ [] →
  cv_wait wakes [] k = Normal (k + S m, iq').
Proof.
  revert wakes k. induction m as [|m IH]; intros wakes k Hbefore Hm Hne.
  - destruct wakes as [|w wakes]; [done|]. simpl in Hm.
    injection Hm as ->. replace (k + 1) with (S k) by lia.
    destruct iq' as [|x iq']; [by destruct Hne | apply cv_wait_nonempty].
  - destruct wakes as [|w wakes]; [done|].
    assert (w = []) as ->.
    { specialize (Hbefore 0 ltac:(lia)). by injection Hbefore. }
    simpl. replace (k + S (S m)) with (S k + S m) by lia.
    apply IH; [|done|done].
    intros i Hi. apply (Hbefore (S i)). lia.
Qed.

Lemma cv_wait_blocked (wakes : list (list T)) k :
  Forall (λ iq, iq = []) wakes → cv_wait wakes [] k = Blocked.
Proof.
  revert k. induction wakes as [|w wakes IH]; intros k Hall; [done|].
  inversion Hall as [|? ? -> Hall']; subst. simpl. by apply IH.
Qed.

Lemma cv_wait_for_result (wakes : list (cv_status * list T)) iq k b n iq' :
  cv_wait_for wakes iq k = Normal (b, n, iq') →
  b = match iq' with [] => false | _ :: _ => true end.
Proof.
  revert iq k. induction wakes as [|[st w] wakes IH]; intros iq k;
    destruct iq as [|x iq]; simpl; try done.
  - by intros [= <- _ <-].
  - destruct st; [apply IH | by intros [= <- _ <-]].
  - by intros [= <- _ <-].
Qed.

Lemma cv_wait_for_first (wakes : list (cv_status * list T)) k m st iq' :
  (∀ i, i < m → wakes !! i = Some (no_timeout, [])) →
  wakes !! m = Some (st, iq') →
  st = timeout ∨ iq' ≠ [] →
  cv_wait_for wakes [] k
  = Normal (match iq' with [] => false | _ :: _ => true end, k + S m, iq').
Proof.
  revert wakes k. induction m as [|m IH]; intros wakes k Hbefore Hm Hend.
  - destruct wakes as [|w wakes]; [done|]. simpl in Hm.
    injection Hm as ->. simpl. replace (k + 1) with (S k) by lia.
    destruct st; [|done].
    destruct Hend as [|Hne]; [done|].
    destruct iq' as [|x iq']; [by destruct Hne|].
    apply cv_wait_for_nonempty.
  - destruct wakes as [|w wakes]; [done|].
    assert (w = (no_timeout, [])) as ->.
    { specialize (Hbefore 0 ltac:(lia)). by injection Hbefore. }
    simpl. replace (k + S (S m)) with (S k + S m) by lia.
    apply IH; [|done|done].
    intros i Hi. apply (Hbefore (S i)). lia.
Qed.

(** A timed wait cannot outlast its deadline: with a timeout among the
    wake-ups it returns. *)
Lemma cv_wait_for_returns (wakes : list (cv_status * list T)) iq k :
  (∃ iq', (timeout, iq') ∈ wakes) → returns (cv_wait_for wakes iq k).
Proof.
  intros [iq' Hin]. revert iq k.
  induction wakes as [|[st w] wakes IH]; intros iq k.
  - by apply elem_of_nil in Hin.
  - destruct iq as [|x iq]; simpl; [|by eexists].
    destruct st; [|by eexists].
    apply IH. apply elem_of_cons in Hin as [[=]|]; done.
Qed.

(** C4. [waitForMessages()] on a non-empty queue returns at once, without
    sleeping; whenever it returns the queue it returns on is non-empty;
    on an empty queue it sleeps through the wake-ups that find nothing and
    returns at the first that finds an item, and does not return while
    there is none.  [waitForMessages(timeout)] returns [true] at once on a
    non-empty queue; on an empty one it sleeps through the wake-ups that
    find nothing before the deadline, answers [false] when the deadline
    passes with the queue still empty and [true] at the first wake-up that
    finds an item; its answer always says whether the queue is non-empty
    as it returns, and it returns whenever the deadline is reached. *)
Theorem waitForMessages_spec q :
  (empty q = false → ∀ wakes, waitForMessages wakes q = Normal (0, _iq q)) ∧
  (∀ wakes n iq, waitForMessages wakes q = Normal (n, iq) → iq ≠ []) ∧
  (empty q = true → ∀ wakes m iq,
     (∀ i, i < m → wakes !! i = Some []) →
     wakes !! m = Some iq → iq ≠ [] →
     waitForMessages wakes q = Normal (S m, iq)) ∧
  (empty q = true → ∀ wakes,
     Forall (λ iq, iq = []) wakes → waitForMessages wakes q = Blocked) ∧
  (empty q = false → ∀ wakes,
     waitForMessages_timed wakes q = Normal (true, 0, _iq q)) ∧
  (empty q = true → ∀ wakes m,
     (∀ i, i < m → wakes !! i = Some (no_timeout, [])) →
     wakes !! m = Some (timeout, []) →
     waitForMessages_timed wakes q = Normal (false, S m, [])) ∧
  (empty q = true → ∀ wakes m st iq,
     (∀ i, i < m → wakes !! i = Some (no_timeout, [])) →
     wakes !! m = Some (st, iq) → iq ≠ [] →
     waitForMessages_timed wakes q = Normal (true, S m, iq)) ∧
  (∀ wakes b n iq, waitForMessages_timed wakes q = Normal (b, n, iq) →
     (b = true ↔ iq ≠ [])) ∧
  (∀ wakes, (∃ iq, (timeout, iq) ∈ wakes) →
     returns (waitForMessages_timed wakes q)).
Proof.
  unfold waitForMessages, waitForMessages_timed.
  destruct (empty q) eqn:He; simpl.
  - apply empty_iff in He. rewrite He.
    split_and!; try done.
    + intros wakes n iq. apply cv_wait_returns_nonempty.
    + intros _ wakes m iq Hbefore Hm Hne.
      by apply (cv_wait_first_nonempty wakes 0 m iq).
    + intros _ wakes. apply cv_wait_blocked.
    + intros _ wakes m Hbefore Hm.
      apply (cv_wait_for_first wakes 0 m timeout []); auto.
    + intros _ wakes m st iq Hbefore Hm Hne.
      rewrite (cv_wait_for_first wakes 0 m st iq); auto.
      by destruct iq.
    + intros wakes b n iq Hr. apply cv_wait_for_result in Hr as ->.
      by destruct iq.
    + intros wakes. apply cv_wait_for_returns.
  - assert (_iq q ≠ []) as Hne.
    { intros Hq. apply empty_iff in Hq. congruence. }
    split_and!; try done.
    + by intros wakes n iq [= _ <-].
    + by intros wakes b n iq [= <- _ <-].
    + intros wakes _. by eexists.
Qed.

End wait_props.

Lemma waitForMessages_spec_witness :
  SmartMessageQueue.waitForMessages [[]; []; [7]] SmartMessageQueue.new
  = Normal (3, [7]) ∧
  SmartMessageQueue.waitForMessages [[]; [7]] (SmartMessageQueue.mk [5] 1)
  = Normal (0, [5]) ∧
  SmartMessageQueue.waitForMessages_timed
    [(SmartMessageQueue.no_timeout, []); (SmartMessageQueue.timeout, [])]
    (SmartMessageQueue.new (T:=nat))
  = Normal (false, 2, []) ∧
  SmartMessageQueue.waitForMessages_timed
    [(SmartMessageQueue.no_timeout, []); (SmartMessageQueue.no_timeout, [7])]
    SmartMessageQueue.new
  = Normal (true, 2, [7]).
Proof.
  pose proof (waitForMessages_spec (SmartMessageQueue.new (T:=nat)))
    as (_ & _ & Hwait & _ & _ & Hfalse & Htrue & _).
  pose proof (waitForMessages_spec (SmartMessageQueue.mk [5] 1))
    as (Hnow & _).
  split_and!.
  - apply (Hwait eq_refl [[]; []; [7]] 2 [7]); [|reflexivity|discriminate].
    intros [|[|i]] Hi; [reflexivity|reflexivity|lia].
  - apply (Hnow eq_refl).
  - apply (Hfalse eq_refl _ 1); [|reflexivity].
    intros [|i] Hi; [reflexivity|lia].
  - apply (Htrue eq_refl _ 1 SmartMessageQueue.no_timeout [7]);
      [|reflexivity|discriminate].
    intros [|i] Hi; [reflexivity|lia].
Defined.

(** ** WrappingMutex and Guard *)

Section guard_props.
Import WrappingMutex.
Context {T : Type}.
Implicit Types (s : Store.t T) (g : Guard.t) (w : WrappingMutex.t).

Lemma bind_Normal {A B} (m : Store.M T A) (f : A → Store.M T B) s a s' :
  m s = Normal (a, s') → (m ≫= f) s = f a s'.
Proof. unfold mbind, Store.M_bind. by intros ->. Qed.

Lemma mutex_lock_free s a m :
  Store.mtxs s !! a = Some m → Mutex.locked m = false →
  Store.mutex_lock a s
  = Normal ((), {| Store.objs := Store.objs s;
                   Store.mtxs := <[a := {| Mutex.locked := true;
                                           Mutex.releases := Mutex.releases m |}]>
                                   (Store.mtxs s) |}).
Proof.
  intros Hm Hfree. unfold Store.mutex_lock, Store.on_mutex, Mutex.lock.
  by rewrite Hm, Hfree.
Qed.

Lemma mutex_unlock_owned s a m :
  Store.mtxs s !! a = Some m → Mutex.locked m = true →
  Store.mutex_unlock a s
  = Normal ((), {| Store.objs := Store.objs s;
                   Store.mtxs := <[a := {| Mutex.locked := false;
                                           Mutex.releases := S (Mutex.releases m) |}]>
                                   (Store.mtxs s) |}).
Proof.
  intros Hm Hheld. unfold Store.mutex_unlock, Store.on_mutex, Mutex.unlock.
  by rewrite Hm, Hheld.
Qed.

(** Once [alreadyUnlocked] is set, [unlock()] and the destructor leave
    everything as it is. *)
Lemma unlock_again g s :
  Guard.alreadyUnlocked g = true → Guard.unlock g s = Normal (g, s).
Proof. unfold Guard.unlock. by intros ->. Qed.

Lemma dtor_unlocked g s :
  Guard.alreadyUnlocked g = true → Guard.dtor g s = Normal ((), s).
Proof. unfold Guard.dtor. by intros ->. Qed.

Lemma unlocks_unlocked n g s :
  Guard.alreadyUnlocked g = true → Guard.unlocks n g s = Normal (g, s).
Proof.
  intros Hg. induction n as [|n IH]; [done|]. simpl.
  by rewrite (bind_Normal _ _ s g s (unlock_again g s Hg)).
Qed.

(** [unlock()] that returns leaves the flag set. *)
Lemma unlock_sets_flag g s g' s' :
  Guard.unlock g s = Normal (g', s') → Guard.alreadyUnlocked g' = true.
Proof.
  unfold Guard.unlock. destruct (Guard.alreadyUnlocked g) eqn:Hg; simpl.
  - by intros [= <- _].
  - unfold mbind, Store.M_bind.
    destruct (Store.mutex_unlock (Guard.mutex_ g) s) as [[[] s1]| | |];
      simpl; try done.
    by intros [= <- _].
Qed.

Lemma unlock_twice g s :
  (g' ← Guard.unlock g; Guard.unlock g') s = Guard.unlock g s.
Proof.
  unfold mbind at 1. unfold Store.M_bind.
  destruct (Guard.unlock g s) as [[g' s']| | |] eqn:Hu; simpl; try done.
  apply unlock_again. by eapply unlock_sets_flag.
Qed.

Lemma dtor_after_unlock g s :
  (g' ← Guard.unlock g; Guard.dtor g') s
  = (g' ← Guard.unlock g; mret ()) s.
Proof.
  unfold mbind, Store.M_bind.
  destruct (Guard.unlock g s) as [[g' s']| | |] eqn:Hu; simpl; try done.
  apply dtor_unlocked. by eapply unlock_sets_flag.
Qed.

Lemma guard_lifetime w s m n :
  Store.mtxs s !! mutex_ w = Some m → Mutex.locked m = false →
  (g ← lock w; g' ← Guard.unlocks n g; Guard.dtor g') s
  = Normal ((), released_once w s m).
Proof.
  intros Hm Hfree.
  pose (held := {| Mutex.locked := true;
                   Mutex.releases := Mutex.releases m |}).
  pose (s1 := {| Store.objs := Store.objs s;
                 Store.mtxs := <[mutex_ w := held]> (Store.mtxs s) |}).
  pose (g0 := {| Guard.data_ := data_ w; Guard.mutex_ := mutex_ w;
                 Guard.alreadyUnlocked := false |}).
  assert (lock w s = Normal (g0, s1)) as Hlock.
  { unfold lock, Guard.ctor.
    by rewrite (bind_Normal _ _ s () s1 (mutex_lock_free s _ m Hm Hfree)). }
  assert (Store.mutex_unlock (mutex_ w) s1
          = Normal ((), released_once w s m)) as Hrel.
  { rewrite (mutex_unlock_owned s1 (mutex_ w) held);
      [|apply lookup_insert_eq|done].
    unfold released_once, s1. simpl. by rewrite insert_insert_eq. }
  rewrite (bind_Normal _ _ s g0 s1 Hlock).
  destruct n as [|n].
  - rewrite (bind_Normal _ _ s1 g0 s1 eq_refl). exact Hrel.
  - pose (g1 := {| Guard.data_ := data_ w; Guard.mutex_ := mutex_ w;
                   Guard.alreadyUnlocked := true |}).
    assert (Guard.unlock g0 s1 = Normal (g1, released_once w s m)) as Hu.
    { unfold Guard.unlock. simpl.
      by rewrite (bind_Normal _ _ s1 () (released_once w s m) Hrel). }
    assert (Guard.unlocks (S n) g0 s1
            = Normal (g1, released_once w s m)) as Hus.
    { simpl. rewrite (bind_Normal _ _ s1 g1 _ Hu).
      by apply unlocks_unlocked. }
    rewrite (bind_Normal _ _ s1 g1 _ Hus). by apply dtor_unlocked.
Qed.

(** C6. Over the lifetime of a guard — [lock()], any number of explicit
    [unlock()] calls, the destructor — the mutex is released exactly once:
    its release count goes up by one and it ends free, whether the release
    came from [unlock()] or from the destructor, and the next [lock()]
    returns.  A second [unlock()] changes nothing, and the destructor
    after an [unlock()] releases nothing. *)
Theorem guard_releases_once g s :
  (g' ← Guard.unlock g; Guard.unlock g') s = Guard.unlock g s ∧
  (g' ← Guard.unlock g; Guard.dtor g') s
    = (g' ← Guard.unlock g; mret ()) s ∧
  (∀ w m n,
     Store.mtxs s !! mutex_ w = Some m → Mutex.locked m = false →
     (g ← lock w; g' ← Guard.unlocks n g; Guard.dtor g') s
     = Normal ((), released_once w s m) ∧
     returns (lock w (released_once w s m))).
Proof.
  split_and!.
  - apply unlock_twice.
  - apply dtor_after_unlock.
  - intros w m n Hm Hfree. split; [by apply guard_lifetime|].
    unfold lock, Guard.ctor.
    erewrite bind_Normal; [by eexists|].
    apply (mutex_lock_free _ _ {| Mutex.locked := false;
                                  Mutex.releases := S (Mutex.releases m) |});
      [apply lookup_insert_eq | done].
Qed.

End guard_props.

Section wrapping_mutex_props.
Import WrappingMutex.
Context {T : Type}.
Implicit Types (s : Store.t T) (g : Guard.t) (w : WrappingMutex.t).

(** What the default constructor leaves: a new object holding the
    value-initialised [T] and a new, free mutex, both at addresses not in
    use before. *)
Lemma ctor_default_spec (T_init : T) s :
  let data := fresh (dom (Store.objs s)) in
  let mutex := fresh (dom (Store.mtxs s)) in
  ctor_default T_init s
  = Normal ({| data_ := data; mutex_ := mutex |},
            {| Store.objs := <[data := T_init]> (Store.objs s);
               Store.mtxs := <[mutex := Mutex.new]> (Store.mtxs s) |}).
Proof. reflexivity. Qed.

Lemma make_shared_fresh (obj : T) s p s' :
  Store.make_shared obj s = Normal (p, s') → Store.objs s !! p = None.
Proof.
  unfold Store.make_shared. intros [= <- _].
  apply not_elem_of_dom, is_fresh.
Qed.

Lemma first_lock_observes (T_init : T) s :
  ∃ w s1 g s2,
    ctor_default T_init s = Normal (w, s1) ∧
    Store.objs s1 !! data_ w = Some T_init ∧
    lock w s1 = Normal (g, s2) ∧
    Guard.alreadyUnlocked g = false ∧
    Guard.deref g s2 = Normal (T_init, s2).
Proof.
  pose proof (ctor_default_spec T_init s) as Hctor. simpl in Hctor.
  eexists _, _, _, _. split; [exact Hctor|]. simpl.
  split; [apply lookup_insert_eq|].
  split.
  - unfold lock, Guard.ctor. simpl.
    erewrite bind_Normal; [reflexivity|].
    apply (mutex_lock_free _ _ Mutex.new); [apply lookup_insert_eq|done].
  - split; [done|]. unfold Guard.deref, Store.read. simpl.
    by rewrite lookup_insert_eq.
Qed.

(** C10. [WrappingMutex()] makes the protected value the value-initialised
    [T]; the first [lock()] returns a guard, and dereferencing that guard
    gives that value.  [WrappingMutex(T obj)] makes nothing: its
    initialiser calls [std::make_shared(obj)] without a template argument,
    the type to make cannot be deduced from [obj], and so for every [obj]
    the constructor is ill-formed (while [std::make_shared<T>()], as the
    default constructor writes it, is accepted). *)
Theorem ctor_initial_value (T_init obj : T) s :
  (∃ w s1 g s2,
     ctor_default T_init s = Normal (w, s1) ∧
     Store.objs s1 !! data_ w = Some T_init ∧
     lock w s1 = Normal (g, s2) ∧
     Guard.deref g s2 = Normal (T_init, s2)) ∧
  StdLib.call_instantiates StdLib.make_shared 1 = true ∧
  StdLib.call_instantiates StdLib.make_shared 0 = false ∧
  ctor obj = IllFormed.
Proof.
  split_and!; try reflexivity.
  destruct (first_lock_observes T_init s)
    as (w & s1 & g & s2 & ? & ? & ? & _ & ?).
  by exists w, s1, g, s2.
Qed.

End wrapping_mutex_props.

Example ctor_default_lock_deref :
  (w ← WrappingMutex.ctor_default 0; g ← WrappingMutex.lock w;
   WrappingMutex.Guard.deref g) store0
  = Normal (0, {| Store.objs := {[0 := 0]};
                  Store.mtxs := {[0 := Mutex.mk true 0]} |}).
Proof. vm_compute. reflexivity. Qed.

Example ctor_value_ill_formed : WrappingMutex.ctor 5 = IllFormed.
Proof. reflexivity. Qed.

(** [store1] is what default construction followed by the assignment of
    [5] through a guard leaves, but for the count of releases. *)
Example default_then_assign_5 :
  (w ← WrappingMutex.ctor_default 0; g ← WrappingMutex.lock w;
   g ← WrappingMutex.Guard.assign 5 g; WrappingMutex.Guard.dtor g;;
   mret w) store0
  = Normal (wm1, {| Store.objs := {[0 := 5]};
                    Store.mtxs := {[0 := Mutex.mk false 1]} |}).
Proof. vm_compute. reflexivity. Qed.

Lemma guard_releases_once_witness :
  Store.mtxs store1 !! 0 = Some Mutex.new ∧
  (g ← WrappingMutex.lock wm1; g' ← WrappingMutex.Guard.unlocks 2 g;
   WrappingMutex.Guard.dtor g') store1
  = Normal ((), {| Store.objs := {[0 := 5]};
                   Store.mtxs := {[0 := Mutex.mk false 1]} |}).
Proof.
  split; [reflexivity|].
  pose proof (guard_releases_once
                (WrappingMutex.Guard.mk 0 0 false) store1) as (_ & _ & Hlife).
  destruct (Hlife wm1 Mutex.new 2) as [-> _]; [reflexivity|reflexivity|].
  vm_compute. reflexivity.
Defined.

(** ** Contract violations *)

Example double_unlock_returns :
  double_unlock store0
  = Normal (WrappingMutex.Guard.mk 0 0 true,
            {| Store.objs := {[0 := 0]};
               Store.mtxs := {[0 := Mutex.mk false 1]} |}).
Proof. vm_compute. reflexivity. Qed.

(** Neither the second [unlock()] nor [pop()] on an empty queue ends in a
    deliberate failure: the first returns, the second is undefined. *)
Lemma contract_violations_not_loud :
  ¬ fails_loudly (double_unlock store0) ∧
  ¬ fails_loudly (SmartMessageQueue.pop (T:=nat) SmartMessageQueue.new).
Proof.
  unfold fails_loudly. rewrite double_unlock_returns. split; discriminate.
Qed.

Section contract_props.
Context {T : Type}.

(** C5. Neither contract violation is diagnosed by the code.
    [pop()] does not test for emptiness: on an empty queue it is
    undefined, and no failure is raised.  A second [unlock()] on a guard
    returns normally and changes neither the guard nor the store. *)
Theorem contract_violations_unchecked
    (q : SmartMessageQueue.t T) (g g1 : WrappingMutex.Guard.t)
    (s s1 : Store.t T) :
  (SmartMessageQueue.empty q = true → SmartMessageQueue.pop q = Undefined) ∧
  (WrappingMutex.Guard.unlock g s = Normal (g1, s1) →
   WrappingMutex.Guard.unlock g1 s1 = Normal (g1, s1)).
Proof.
  split.
  - intros He. apply empty_iff in He. unfold SmartMessageQueue.pop.
    by rewrite He.
  - intros Hu. apply unlock_again. by eapply unlock_sets_flag.
Qed.

End contract_props.

Lemma contract_violations_unchecked_witness :
  SmartMessageQueue.pop (T:=nat) SmartMessageQueue.new = Undefined ∧
  WrappingMutex.Guard.unlock (WrappingMutex.Guard.mk 0 0 true)
    {| Store.objs := {[0 := 5]}; Store.mtxs := {[0 := Mutex.mk false 1]} |}
  = Normal (WrappingMutex.Guard.mk 0 0 true,
            {| Store.objs := {[0 := 5]};
               Store.mtxs := {[0 := Mutex.mk false 1]} |}).
Proof.
  pose proof (contract_violations_unchecked
                (SmartMessageQueue.new (T:=nat))
                (WrappingMutex.Guard.mk 0 0 false)
                (WrappingMutex.Guard.mk 0 0 true)
                {| Store.objs := {[0 := 5]};
                   Store.mtxs := {[0 := Mutex.mk true 0]} |}
                {| Store.objs := {[0 := 5]};
                   Store.mtxs := {[0 := Mutex.mk false 1]} |})
    as [Hpop Hunlock].
  split.
  - apply Hpop. reflexivity.
  - apply Hunlock. vm_compute. reflexivity.
Defined.

(** ** RelaxedAtomic *)

Section relaxed_atomic_props.
Import RelaxedAtomic.
Context {T : Type}.
Implicit Types (a other : RelaxedAtomic.t T).

Lemma load_store (val : T) a : load (store val a) = val.
Proof. reflexivity. Qed.

Lemma load_after_stores (writes : list T) a :
  load (foldl (λ a w, store w a) a writes) = default (load a) (last writes).
Proof.
  induction writes as [|w ws _] using rev_ind; [done|].
  by rewrite foldl_app, last_snoc.
Qed.

(** C7. The copy constructor is a load of the source followed by a store
    into the new object, so the new object's [load()] is the value the
    source held when it was loaded.  The two steps are not one: stores of
    other threads to the source that land between them are not seen by
    the copy, which still holds the loaded value while the source holds
    the last value written. *)
Theorem copy_ctor_load_then_store (fresh : T) (writes : list T) other :
  copy_ctor fresh other = store (load other) {| value := fresh |} ∧
  load (copy_ctor fresh other) = load other ∧
  load (copy_ctor_racing fresh writes other).1 = load other ∧
  load (copy_ctor_racing fresh writes other).2
    = default (load other) (last writes).
Proof.
  split_and!; try reflexivity.
  unfold copy_ctor_racing. simpl. apply load_after_stores.
Qed.

End relaxed_atomic_props.

Example copy_ctor_of_7 :
  RelaxedAtomic.load (RelaxedAtomic.copy_ctor 0 (RelaxedAtomic.ctor 7)) = 7.
Proof. reflexivity. Qed.

(** A writer storing [9] between the two steps: the copy holds [7], the
    source [9]. *)
Example copy_ctor_not_atomic :
  RelaxedAtomic.copy_ctor_racing 0 [9] (RelaxedAtomic.ctor 7)
  = (RelaxedAtomic.ctor 7, RelaxedAtomic.ctor 9).
Proof. reflexivity. Qed.

(** ** Copying and moving a Guard *)

Lemma Guard_not_move_constructible :
  ¬ (SpecialMembers.copy_constructible SpecialMembers.Guard = false ∧
     SpecialMembers.copy_assignable SpecialMembers.Guard = false ∧
     SpecialMembers.move_constructible SpecialMembers.Guard = true).
Proof. intros (_ & _ & Hmove). vm_compute in Hmove. discriminate. Qed.

(** C8. A [Guard] cannot be copied, and it cannot be moved
    either: the class declares no move constructor, and its deleted copy
    operations and its destructor keep the compiler from declaring one, so
    construction from an rvalue [Guard] falls to the deleted copy
    constructor.  [lock()] builds its one guard in the [return] statement,
    and while that guard holds the mutex another [lock()] cannot return. *)
Theorem Guard_neither_copied_nor_moved
    {T : Type} (w : WrappingMutex.t) (s : Store.t T) (m : Mutex.t) :
  SpecialMembers.copy_constructible SpecialMembers.Guard = false ∧
  SpecialMembers.copy_assignable SpecialMembers.Guard = false ∧
  SpecialMembers.move_constructible SpecialMembers.Guard = false ∧
  SpecialMembers.move_assignable SpecialMembers.Guard = false ∧
  WrappingMutex.lock w s
    = WrappingMutex.Guard.ctor (WrappingMutex.data_ w)
        (WrappingMutex.mutex_ w) s ∧
  (Store.mtxs s !! WrappingMutex.mutex_ w = Some m →
   Mutex.locked m = true →
   WrappingMutex.lock w s = Blocked).
Proof.
  split_and!; try reflexivity.
  intros Hm Hheld.
  unfold WrappingMutex.lock, WrappingMutex.Guard.ctor, mbind, Store.M_bind,
    Store.mutex_lock, Store.on_mutex, Mutex.lock.
  by rewrite Hm, Hheld.
Qed.

Lemma Guard_neither_copied_nor_moved_witness :
  (g ← WrappingMutex.lock wm1; WrappingMutex.lock wm1) store1 = Blocked.
Proof.
  pose proof (Guard_neither_copied_nor_moved wm1
                {| Store.objs := {[0 := 5]};
                   Store.mtxs := {[0 := Mutex.mk true 0]} |}
                (Mutex.mk true 0)) as (_ & _ & _ & _ & _ & Hheld).
  assert (WrappingMutex.lock wm1 store1
          = Normal (WrappingMutex.Guard.mk 0 0 false,
                    {| Store.objs := {[0 := 5]};
                       Store.mtxs := {[0 := Mutex.mk true 0]} |})) as Hfirst.
  { vm_compute. reflexivity. }
  rewrite (bind_Normal _ _ _ _ _ Hfirst).
  apply Hheld; reflexivity.
Defined.

(** * Further properties *)

(** ** SmartMessageQueue: size, pop and push together *)

Section queue_more.
Import SmartMessageQueue.
Context {T : Type}.
Implicit Types (q : SmartMessageQueue.t T) (iq got : list T).

Lemma run_pops iq n got :
  run (replicate (length iq) Pop) ({| _iq := iq; _cvar := n |}, got)
  = Normal ({| _iq := []; _cvar := n |}, got ++ iq).
Proof.
  revert got. induction iq as [|x iq IH]; intros got; simpl.
  - by rewrite app_nil_r.
  - rewrite IH. by rewrite <- app_assoc.
Qed.

(** X1. [size] counts what is pending: after a history of calls that
    returns, the size of the queue and the number of messages handed out add
    up to the size at the start and the number of messages pushed; and
    [empty] answers [true] exactly when the size is [0]. *)
Theorem size_accounts_for_messages (h : list call) q q' got :
  run h (q, []) = Normal (q', got) →
  size q' + length got = size q + length (pushed h) ∧
  (empty q' = true ↔ size q' = 0).
Proof.
  intros Hrun. apply run_conserves in Hrun. simpl in Hrun.
  apply (f_equal length) in Hrun. rewrite !length_app in Hrun.
  unfold size, empty. split; [lia|].
  destruct (_iq q'); simpl; split; done.
Qed.

(** X2. [pop] hands out the oldest message: on an empty queue a [push]
    followed by a [pop] gives the message back and leaves the queue empty,
    and on a non-empty queue a [push] does not change what [pop] returns
    ([pop] after [push] is [push] after [pop]). *)
Theorem pop_after_push (msg : T) (notify : bool) q :
  (empty q = true →
   pop (push msg notify q)
   = Normal (msg, {| _iq := []; _cvar := _cvar (push msg notify q) |})) ∧
  (∀ x q1, pop q = Normal (x, q1) →
     pop (push msg notify q) = Normal (x, push msg notify q1)).
Proof.
  split.
  - intros He. apply empty_iff in He. unfold pop, push.
    destruct notify; simpl; by rewrite He.
  - intros x q1. unfold pop, push.
    destruct (_iq q) as [|y rest] eqn:Hq; [done|].
    intros [= <- <-]. by destruct notify.
Qed.

(** X3. Taking the messages one at a time with [pop], [size] times, hands
    out the sequence [popAll] returns and leaves the queue [popAll] leaves;
    one more [pop] is undefined. *)
Theorem pops_drain_like_popAll q got :
  run (replicate (size q) Pop) (q, got)
  = Normal ((popAll q).2, got ++ (popAll q).1) ∧
  run (replicate (S (size q)) Pop) (q, got) = Undefined.
Proof.
  rewrite popAll_spec. destruct q as [iq n]. unfold size. simpl _iq.
  simpl _cvar. simpl fst. simpl snd. split; [apply run_pops|].
  replace (S (length iq)) with (length iq + 1) by lia.
  revert got. induction iq as [|x iq IH]; intros got; [done|].
  simpl. apply IH.
Qed.

(** X5. After a [push] neither wait sleeps: both return at once with the
    message in the queue, whatever [notify] was; and a waiter asleep on an
    empty queue that wakes after the [push] returns with the message. *)
Theorem wait_after_push (msg : T) (notify : bool) q :
  (∀ wakes, waitForMessages wakes (push msg notify q)
            = Normal (0, _iq q ++ [msg])) ∧
  (∀ wakes, waitForMessages_timed wakes (push msg notify q)
            = Normal (true, 0, _iq q ++ [msg])) ∧
  (empty q = true → ∀ wakes,
     waitForMessages (_iq (push msg notify q) :: wakes) q
     = Normal (1, [msg])).
Proof.
  assert (_iq (push msg notify q) = _iq q ++ [msg]) as Hiq
    by apply _iq_push.
  assert (empty (push msg notify q) = false) as Hne.
  { unfold empty. rewrite Hiq. by destruct (_iq q). }
  unfold waitForMessages, waitForMessages_timed. rewrite Hne, Hiq. simpl.
  split_and!; try done.
  intros He wakes. rewrite He. simpl. apply empty_iff in He. rewrite He.
  simpl. by destruct wakes.
Qed.

End queue_more.

Lemma size_accounts_for_messages_witness :
  SmartMessageQueue.size (SmartMessageQueue.mk [4] 3) + length [1; 2; 3]
  = SmartMessageQueue.size (SmartMessageQueue.new (T:=nat)) + 4.
Proof.
  apply (size_accounts_for_messages
           [SmartMessageQueue.Push 1 true; SmartMessageQueue.Push 2 false;
            SmartMessageQueue.Pop; SmartMessageQueue.Push 3 true;
            SmartMessageQueue.PopAll; SmartMessageQueue.Push 4 true]
           SmartMessageQueue.new (SmartMessageQueue.mk [4] 3) [1; 2; 3]).
  reflexivity.
Defined.

Lemma pop_after_push_witness :
  SmartMessageQueue.pop
    (SmartMessageQueue.push 9 true (SmartMessageQueue.new (T:=nat)))
  = Normal (9, SmartMessageQueue.mk [] 1) ∧
  SmartMessageQueue.pop
    (SmartMessageQueue.push 9 false (SmartMessageQueue.mk [7; 8] 0))
  = Normal (7, SmartMessageQueue.mk [8; 9] 0).
Proof.
  pose proof (pop_after_push 9 true (SmartMessageQueue.new (T:=nat)))
    as [Hempty _].
  pose proof (pop_after_push 9 false (SmartMessageQueue.mk [7; 8] 0))
    as [_ Hfront].
  split.
  - apply Hempty. reflexivity.
  - apply (Hfront 7 (SmartMessageQueue.mk [8] 0)). reflexivity.
Defined.

Lemma wait_after_push_witness :
  SmartMessageQueue.waitForMessages [[9]; []]
    (SmartMessageQueue.new (T:=nat))
  = Normal (1, [9]).
Proof.
  pose proof (wait_after_push 9 true (SmartMessageQueue.new (T:=nat)))
    as (_ & _ & Hwoken).
  apply (Hwoken eq_refl [[]]).
Defined.

(** ** Guard: writing and reading the protected value *)

Section guard_more.
Import WrappingMutex.
Context {T : Type}.
Implicit Types (s : Store.t T) (g : Guard.t) (w : WrappingMutex.t).

Lemma write_bound s p (old v : T) :
  Store.objs s !! p = Some old →
  Store.write p v s
  = Normal ((), {| Store.objs := <[p := v]> (Store.objs s);
                   Store.mtxs := Store.mtxs s |}).
Proof. intros Hp. unfold Store.write. by rewrite Hp. Qed.

Lemma read_bound s p (v : T) :
  Store.objs s !! p = Some v → Store.read p s = Normal (v, s).
Proof. intros Hp. unfold Store.read. by rewrite Hp. Qed.

Lemma lock_free w s m :
  Store.mtxs s !! mutex_ w = Some m → Mutex.locked m = false →
  lock w s
  = Normal ({| Guard.data_ := data_ w; Guard.mutex_ := mutex_ w;
               Guard.alreadyUnlocked := false |},
            {| Store.objs := Store.objs s;
               Store.mtxs := <[mutex_ w := {| Mutex.locked := true;
                                              Mutex.releases := Mutex.releases m |}]>
                               (Store.mtxs s) |}).
Proof.
  intros Hm Hfree. unfold lock, Guard.ctor.
  by rewrite (bind_Normal _ _ s () _ (mutex_lock_free s _ m Hm Hfree)).
Qed.

(** X6. What a guard assigns is what it reads back, and it stays in the
    protected object after the guard is gone: the guard of the next
    [lock()] reads the assigned value.  The mutex has been released once in
    between and is held by the second guard. *)
Theorem guard_assign_persists w s m (old v : T) :
  Store.objs s !! data_ w = Some old →
  Store.mtxs s !! mutex_ w = Some m → Mutex.locked m = false →
  (g ← lock w; g ← Guard.assign v g; Guard.deref g) s
  = Normal (v, {| Store.objs := <[data_ w := v]> (Store.objs s);
                  Store.mtxs := <[mutex_ w := {| Mutex.locked := true;
                                                 Mutex.releases := Mutex.releases m |}]>
                                  (Store.mtxs s) |}) ∧
  (g ← lock w; g ← Guard.assign v g; Guard.dtor g;;
   g2 ← lock w; Guard.deref g2) s
  = Normal (v, {| Store.objs := <[data_ w := v]> (Store.objs s);
                  Store.mtxs := <[mutex_ w := {| Mutex.locked := true;
                                                 Mutex.releases := S (Mutex.releases m) |}]>
                                  (Store.mtxs s) |}).
Proof.
  intros Hobj Hm Hfree.
  pose proof (lock_free w s m Hm Hfree) as Hlock.
  set (g0 := {| Guard.data_ := data_ w; Guard.mutex_ := mutex_ w;
                Guard.alreadyUnlocked := false |}) in *.
  set (s1 := {| Store.objs := Store.objs s;
                Store.mtxs := <[mutex_ w := {| Mutex.locked := true;
                                               Mutex.releases := Mutex.releases m |}]>
                                (Store.mtxs s) |}) in *.
  set (s2 := {| Store.objs := <[data_ w := v]> (Store.objs s);
                Store.mtxs := Store.mtxs s1 |}).
  assert (Guard.assign v g0 s1 = Normal (g0, s2)) as Hassign.
  { unfold Guard.assign.
    by rewrite (bind_Normal _ _ s1 () s2 (write_bound s1 _ old v Hobj)). }
  assert (Guard.deref g0 s2 = Normal (v, s2)) as Hread.
  { apply read_bound. apply lookup_insert_eq. }
  split.
  - rewrite (bind_Normal _ _ s g0 s1 Hlock).
    by rewrite (bind_Normal _ _ s1 g0 s2 Hassign).
  - set (s3 := {| Store.objs := Store.objs s2;
                  Store.mtxs := <[mutex_ w := {| Mutex.locked := false;
                                                 Mutex.releases := S (Mutex.releases m) |}]>
                                  (Store.mtxs s) |}).
    assert (Guard.dtor g0 s2 = Normal ((), s3)) as Hdtor.
    { unfold Guard.dtor. simpl.
      rewrite (mutex_unlock_owned s2 (mutex_ w)
                 {| Mutex.locked := true;
                    Mutex.releases := Mutex.releases m |});
        [|apply lookup_insert_eq|done].
      unfold s3. simpl. by rewrite insert_insert_eq. }
    assert (lock w s3
            = Normal (g0, {| Store.objs := Store.objs s2;
                             Store.mtxs := <[mutex_ w := {| Mutex.locked := true;
                                                            Mutex.releases := S (Mutex.releases m) |}]>
                                             (Store.mtxs s) |})) as Hlock2.
    { rewrite (lock_free w s3 {| Mutex.locked := false;
                                 Mutex.releases := S (Mutex.releases m) |});
        [|apply lookup_insert_eq|done].
      unfold s3. simpl. by rewrite insert_insert_eq. }
    rewrite (bind_Normal _ _ s g0 s1 Hlock).
    rewrite (bind_Normal _ _ s1 g0 s2 Hassign).
    rewrite (bind_Normal _ _ s2 () s3 Hdtor).
    rewrite (bind_Normal _ _ s3 _ _ Hlock2).
    apply read_bound. apply lookup_insert_eq.
Qed.

(** X7. Two [WrappingMutex]es built one after the other by the default
    constructor share neither the object nor the mutex: with the guard of
    the first alive the second can still be locked, and what is assigned
    through the first guard is not seen through the second, which still
    reads the initial value. *)
Theorem wrapping_mutexes_independent (T_init c : T) s :
  ∃ w1 w2 s1,
    (w1 ← ctor_default T_init; w2 ← ctor_default T_init; mret (w1, w2)) s
    = Normal ((w1, w2), s1) ∧
    data_ w1 ≠ data_ w2 ∧ mutex_ w1 ≠ mutex_ w2 ∧
    ∃ s2,
      (g1 ← lock w1; g2 ← lock w2; Guard.assign c g1;; Guard.deref g2) s1
      = Normal (T_init, s2) ∧
      Store.objs s2 !! data_ w1 = Some c.
Proof.
  set (p1 := fresh (dom (Store.objs s))).
  set (a1 := fresh (dom (Store.mtxs s))).
  set (sa := {| Store.objs := <[p1 := T_init]> (Store.objs s);
                Store.mtxs := <[a1 := Mutex.new]> (Store.mtxs s) |}).
  set (p2 := fresh (dom (Store.objs sa))).
  set (a2 := fresh (dom (Store.mtxs sa))).
  set (sb := {| Store.objs := <[p2 := T_init]> (Store.objs sa);
                Store.mtxs := <[a2 := Mutex.new]> (Store.mtxs sa) |}).
  assert (p1 ≠ p2) as Hp.
  { intros Heq. pose proof (is_fresh (dom (Store.objs sa))) as Hfresh.
    fold p2 in Hfresh. rewrite <- Heq in Hfresh. apply Hfresh.
    unfold sa. simpl. rewrite dom_insert_L. set_solver. }
  assert (a1 ≠ a2) as Ha.
  { intros Heq. pose proof (is_fresh (dom (Store.mtxs sa))) as Hfresh.
    fold a2 in Hfresh. rewrite <- Heq in Hfresh. apply Hfresh.
    unfold sa. simpl. rewrite dom_insert_L. set_solver. }
  exists {| data_ := p1; mutex_ := a1 |}, {| data_ := p2; mutex_ := a2 |}, sb.
  split; [reflexivity|]. simpl. split; [done|]. split; [done|].
  set (w1 := {| data_ := p1; mutex_ := a1 |}).
  set (w2 := {| data_ := p2; mutex_ := a2 |}).
  assert (Store.mtxs sb !! a1 = Some Mutex.new) as Hm1.
  { unfold sb, sa. simpl. rewrite lookup_insert_ne by done.
    apply lookup_insert_eq. }
  pose proof (lock_free w1 sb Mutex.new Hm1 eq_refl) as Hlock1.
  match type of Hlock1 with _ = Normal (?g, ?s') =>
    set (g1 := g) in *; set (sc := s') in * end.
  assert (Store.mtxs sc !! a2 = Some Mutex.new) as Hm2.
  { unfold sc, sb. simpl. rewrite lookup_insert_ne by done.
    apply lookup_insert_eq. }
  pose proof (lock_free w2 sc Mutex.new Hm2 eq_refl) as Hlock2.
  match type of Hlock2 with _ = Normal (?g, ?s') =>
    set (g2 := g) in *; set (sd := s') in * end.
  assert (Store.objs sd !! p1 = Some T_init) as Hobj1.
  { unfold sd, sc, sb, sa. simpl. rewrite lookup_insert_ne by done.
    apply lookup_insert_eq. }
  pose proof (write_bound sd p1 T_init c Hobj1) as Hwrite.
  match type of Hwrite with _ = Normal (_, ?s') => set (se := s') in * end.
  exists se.
  rewrite (bind_Normal _ _ sb g1 sc Hlock1).
  rewrite (bind_Normal _ _ sc g2 sd Hlock2).
  assert (Guard.assign c g1 sd = Normal (g1, se)) as Hassign.
  { unfold Guard.assign. by rewrite (bind_Normal _ _ sd () se Hwrite). }
  rewrite (bind_Normal _ _ sd g1 se Hassign).
  split.
  - apply read_bound. unfold se, sd, sc, sb. simpl.
    rewrite lookup_insert_ne by done. apply lookup_insert_eq.
  - unfold se. simpl. apply lookup_insert_eq.
Qed.

End guard_more.

Lemma guard_assign_persists_witness :
  (g ← WrappingMutex.lock wm1; g ← WrappingMutex.Guard.assign 6 g;
   WrappingMutex.Guard.dtor g;;
   g2 ← WrappingMutex.lock wm1; WrappingMutex.Guard.deref g2) store1
  = Normal (6, {| Store.objs := {[0 := 6]};
                  Store.mtxs := {[0 := Mutex.mk true 1]} |}).
Proof.
  destruct (guard_assign_persists wm1 store1 Mutex.new 5 6) as [_ ->];
    [reflexivity|reflexivity|reflexivity|].
  vm_compute. reflexivity.
Defined.

(** ** RelaxedAtomic: stores and loads *)

Section relaxed_atomic_more.
Import RelaxedAtomic.
Context {T : Type}.

(** The default order is one both operations take. *)
Lemma relaxed_order_returns (val : T) (a : RelaxedAtomic.t T) :
  load_order relaxed a = Normal (load a) ∧
  store_order val relaxed a = Normal (store val a).
Proof. split; reflexivity. Qed.

Lemma stores_app (ws1 ws2 : list (T * memory_order))
    (a : RelaxedAtomic.t T) :
  stores (ws1 ++ ws2) a = stores ws1 a ≫= stores ws2.
Proof.
  revert a. induction ws1 as [|[val o] ws1 IH]; intros a; simpl; [done|].
  unfold store_order. destruct (store_order_ok o); simpl; [apply IH|done].
Qed.

Lemma stores_ok (ws : list (T * memory_order)) (a : RelaxedAtomic.t T) :
  Forall (λ w, store_order_ok w.2 = true) ws →
  stores ws a = Normal {| value := default (value a) (last ws.*1) |}.
Proof.
  induction ws as [|[val o] ws IH] using rev_ind; intros Hok.
  - by destruct a.
  - apply Forall_app in Hok as [Hws Hlast].
    apply Forall_cons in Hlast as [Hlast _]. simpl in Hlast.
    rewrite stores_app, (IH Hws), fmap_app. simpl.
    unfold store_order. by rewrite Hlast, last_snoc.
Qed.

Lemma stores_not_ok (ws : list (T * memory_order))
    (a : RelaxedAtomic.t T) :
  Exists (λ w, store_order_ok w.2 = false) ws → stores ws a = Undefined.
Proof.
  intros Hbad. revert a.
  induction ws as [|[val o] ws IH]; intros a; [by inversion Hbad|].
  simpl. unfold store_order.
  destruct (store_order_ok o) eqn:Ho; [|done]. simpl.
  apply IH. by inversion Hbad as [? ? Hw|]; [simpl in Hw; congruence|].
Qed.

(** X8. With memory orders the operations take (not [release] or
    [acq_rel] for a load; not [consume], [acquire] or [acq_rel] for a
    store), a load after stores returns the value of the last store, and
    the value the object had before when nothing was stored.  With an order
    it does not take a load is undefined, and so are stores in a row one of
    which is given an order a store does not take.  Assignment and
    conversion, which use the default order, always return: the conversion
    gives the last value assigned. *)
Theorem load_returns_last_store
    (ws : list (T * memory_order)) (order : memory_order)
    (vals : list T) (a : RelaxedAtomic.t T) :
  (Forall (λ w, store_order_ok w.2 = true) ws →
   load_order_ok order = true →
   (a' ← stores ws a; load_order order a')
   = Normal (default (load a) (last ws.*1))) ∧
  (load_order_ok order = false → load_order order a = Undefined) ∧
  (Exists (λ w, store_order_ok w.2 = false) ws →
   stores ws a = Undefined) ∧
  to_T (foldl (λ a val, assign val a) a vals)
  = default (to_T a) (last vals).
Proof.
  split_and!.
  - intros Hws Hload. rewrite (stores_ok ws a Hws). simpl.
    unfold load_order. by rewrite Hload.
  - intros Hload. unfold load_order. by rewrite Hload.
  - apply stores_not_ok.
  - induction vals as [|val vals _] using rev_ind; [done|].
    by rewrite foldl_app, last_snoc.
Qed.

End relaxed_atomic_more.

Lemma load_returns_last_store_witness :
  (a' ← RelaxedAtomic.stores
          [(1, RelaxedAtomic.relaxed); (2, RelaxedAtomic.release)]
          (RelaxedAtomic.ctor 0);
   RelaxedAtomic.load_order RelaxedAtomic.acquire a') = Normal 2 ∧
  RelaxedAtomic.load_order RelaxedAtomic.release (RelaxedAtomic.ctor 0)
  = Undefined ∧
  RelaxedAtomic.stores
    [(1, RelaxedAtomic.relaxed); (2, RelaxedAtomic.acquire)]
    (RelaxedAtomic.ctor 0) = Undefined.
Proof.
  pose proof (load_returns_last_store
                [(1, RelaxedAtomic.relaxed); (2, RelaxedAtomic.release)]
                RelaxedAtomic.acquire [] (RelaxedAtomic.ctor 0))
    as (Hgood & _ & _ & _).
  pose proof (load_returns_last_store
                [(1, RelaxedAtomic.relaxed); (2, RelaxedAtomic.acquire)]
                RelaxedAtomic.release [] (RelaxedAtomic.ctor 0))
    as (_ & Hload & Hstores & _).
  split_and!.
  - apply Hgood; [|reflexivity].
    repeat constructor.
  - apply Hload. reflexivity.
  - apply Hstores. apply Exists_cons_tl, Exists_cons_hd. reflexivity.
Defined.

(** ** AdminManager *)

Section admin_manager_props.
Import AdminManager.
Context {ComputedRole ServerRole : Type} (role_init : ComputedRole).
Implicit Types (a : AdminManager.t ComputedRole ServerRole)
  (h : list (AdminManager.call ComputedRole ServerRole)).

Lemma authorizations_snoc h c :
  authorizations (h ++ [c])
  = authorizations h
    ++ match c with
       | SetAuthorized role' allRoles' => [(role', allRoles')]
       | Deauthorize => []
       end.
Proof.
  unfold authorizations. rewrite bind_app. simpl. by rewrite app_nil_r.
Qed.

(** X9. Over any history of [setAuthorized] and [deauthorize] calls: after
    a [setAuthorized] the manager is authorized with the role given; after a
    [deauthorize] it is not, and the role is the initial one; and
    [getAllRoles] always gives the list of the last [setAuthorized], also
    after a [deauthorize], which does not clear it. *)
Theorem admin_after_history h a
    (role' : ComputedRole) (allRoles' : list ServerRole) :
  (authorized (run role_init (h ++ [SetAuthorized role' allRoles']) a) = true ∧
   getRole (run role_init (h ++ [SetAuthorized role' allRoles']) a) = role') ∧
  (authorized (run role_init (h ++ [Deauthorize]) a) = false ∧
   getRole (run role_init (h ++ [Deauthorize]) a) = role_init) ∧
  getAllRoles (run role_init h a)
  = default (getAllRoles a) (snd <$> last (authorizations h)).
Proof.
  unfold run. rewrite !foldl_app. split_and!; try done.
  induction h as [|c h IH] using rev_ind; [done|].
  rewrite foldl_app, authorizations_snoc. simpl.
  destruct c as [r rs|]; simpl.
  - by rewrite last_snoc.
  - by rewrite app_nil_r.
Qed.

End admin_manager_props.

Example deauthorize_keeps_allRoles :
  AdminManager.getAllRoles
    (AdminManager.run 0
       [AdminManager.SetAuthorized 3 [1; 2]; AdminManager.Deauthorize]
       (AdminManager.mk false 0 []))
  = [1; 2].
Proof. reflexivity. Qed.

(** ** GlobedSettings *)

Section settings_props.
Import GlobedSettings.
Context {T : Type} (T_init : T).
Implicit Types (saved : gmap string T).

Lemma has_store key (val : T) saved : has key (store key val saved) = true.
Proof.
  unfold has, store. apply bool_decide_eq_true. rewrite lookup_insert_eq.
  by eexists.
Qed.

Lemma has_unbound key saved : saved !! key = None → has key saved = false.
Proof.
  intros Hk. unfold has. apply bool_decide_eq_false. rewrite Hk.
  by intros [? ?].
Qed.

(** X10. A value stored under a key is the value [loadOrDefault] and
    [loadOptionalInto] give for that key, whatever the default or the
    previous content of [into]; for a key that is not saved
    [loadOrDefault] gives the default and [loadOptionalInto] leaves [into]
    as it was; and storing under one key changes neither for another
    key. *)
Theorem saved_value_round_trip
    (key key' : string) (val defaultval into : T) saved :
  loadOrDefault T_init key defaultval (store key val saved) = val ∧
  loadOptionalInto T_init key into (store key val saved) = val ∧
  (saved !! key = None →
   loadOrDefault T_init key defaultval saved = defaultval ∧
   loadOptionalInto T_init key into saved = into) ∧
  (key ≠ key' →
   loadOrDefault T_init key' defaultval (store key val saved)
   = loadOrDefault T_init key' defaultval saved ∧
   loadOptionalInto T_init key' into (store key val saved)
   = loadOptionalInto T_init key' into saved).
Proof.
  unfold loadOrDefault, loadOptionalInto.
  rewrite has_store. split_and!.
  - unfold load, store. by rewrite lookup_insert_eq.
  - unfold load, store. by rewrite lookup_insert_eq.
  - intros Hk. by rewrite has_unbound.
  - intros Hne. unfold has, load, store. by rewrite lookup_insert_ne.
Qed.

End settings_props.

Lemma saved_value_round_trip_witness :
  GlobedSettings.loadOrDefault 0 "tpsCap" 7 (∅ : gmap string nat) = 7 ∧
  GlobedSettings.loadOrDefault 0 "audioDevice" 7
    (GlobedSettings.store "tpsCap" 60 ∅)
  = 7.
Proof.
  pose proof (saved_value_round_trip 0 "tpsCap" "audioDevice" 60 7 7 ∅)
    as (_ & _ & Hmissing & Hother).
  split.
  - apply Hmissing. reflexivity.
  - destruct Hother as [-> _]; [discriminate|].
    pose proof (saved_value_round_trip 0 "audioDevice" "tpsCap" 60 7 7 ∅)
      as (_ & _ & Hmissing' & _).
    apply Hmissing'. reflexivity.
Defined.

(** ** InvitePopup: the order of the player list *)

Section string_order.
Import InvitePopup.
Implicit Types (a b c : list N).

Lemma lex_ltb_irrefl a : lex_ltb a a = false.
Proof.
  induction a as [|x a IH]; [done|]. simpl.
  by rewrite N.ltb_irrefl, N.eqb_refl.
Qed.

Lemma lex_ltb_trans a b c :
  lex_ltb a b = true → lex_ltb b c = true → lex_ltb a c = true.
Proof.
  revert b c. induction a as [|x a IH]; intros [|y b] [|z c]; simpl;
    try done.
  destruct (N.ltb_spec x y), (N.eqb_spec x y), (N.ltb_spec y z),
    (N.eqb_spec y z), (N.ltb_spec x z), (N.eqb_spec x z);
    try done; try lia.
  apply IH.
Qed.

Lemma lex_ltb_trichotomy a b :
  lex_ltb a b = false → lex_ltb b a = false → a = b.
Proof.
  revert b. induction a as [|x a IH]; intros [|y b]; simpl; try done.
  destruct (N.ltb_spec x y), (N.ltb_spec y x); try done; try lia.
  assert (x = y) as -> by lia. rewrite N.eqb_refl.
  intros Hab Hba. f_equal. by apply IH.
Qed.

Lemma lex_ltb_asym a b : lex_ltb a b = true → lex_ltb b a = false.
Proof.
  intros Hab. destruct (lex_ltb b a) eqn:Hba; [|done].
  pose proof (lex_ltb_trans a b a Hab Hba) as Haa.
  by rewrite lex_ltb_irrefl in Haa.
Qed.

Lemma lex_ltb_neg_trans a b c :
  lex_ltb a b = false → lex_ltb b c = false → lex_ltb a c = false.
Proof.
  intros Hab Hbc. destruct (lex_ltb a c) eqn:Hac; [|done].
  destruct (lex_ltb b a) eqn:Hba.
  - by rewrite (lex_ltb_trans b a c Hba Hac) in Hbc.
  - assert (a = b) as -> by by apply lex_ltb_trichotomy.
    congruence.
Qed.

End string_order.

Section sort_facts.
Import InvitePopup.
Context {A : Type}.
Implicit Types (cmp : A → A → bool).

Lemma strict_weak_order_asym cmp x y :
  strict_weak_order cmp → cmp x y = true → cmp y x = false.
Proof.
  intros (Hirr & Htrans & _) Hxy. destruct (cmp y x) eqn:Hyx; [|done].
  pose proof (Hirr x) as Hx. by rewrite (Htrans x y x Hxy Hyx) in Hx.
Qed.

Lemma strict_weak_order_neg_trans cmp x y z :
  strict_weak_order cmp →
  cmp x y = false → cmp y z = false → cmp x z = false.
Proof.
  intros Hswo Hxy Hyz. pose proof Hswo as (Hirr & Htrans & Heqv).
  destruct (cmp x z) eqn:Hxz; [|done].
  destruct (cmp y x) eqn:Hyx.
  { by rewrite (Htrans y x z Hyx Hxz) in Hyz. }
  destruct (cmp z y) eqn:Hzy.
  { by rewrite (Htrans x z y Hxz Hzy) in Hxy. }
  destruct (Heqv x y z Hxy Hyx Hyz Hzy) as [Hxz' _]. congruence.
Qed.

Lemma merge_std_sort_spec : std_sort_spec (merge_std_sort (A:=A)).
Proof.
  intros cmp l Hswo. unfold merge_std_sort. split.
  - apply merge_sort_Permutation.
  - apply StronglySorted_merge_sort.
    + intros x y z Hyx Hzy. by eapply strict_weak_order_neg_trans.
    + intros x y. destruct (cmp y x) eqn:Hyx; [|by left].
      right. by eapply strict_weak_order_asym.
Qed.

Lemma StronglySorted_lookup_lt (R : relation A) (l : list A) i j x y :
  StronglySorted R l → i < j →
  l !! i = Some x → l !! j = Some y → R x y.
Proof.
  intros Hsorted. revert i j.
  induction Hsorted as [|z l Hsorted IH Hall]; intros i j Hij Hi Hj;
    [done|].
  destruct j as [|j]; [lia|]. destruct i as [|i]; simpl in *.
  - injection Hi as ->. by eapply Forall_lookup_1.
  - eapply IH; [|done|done]. lia.
Qed.

End sort_facts.

Section invite_popup_props.
Import InvitePopup.
Context {Rest : Type}.
Context (isFriend : Z → bool).
Context (std_sort :
  (PlayerPreviewAccountData Rest → PlayerPreviewAccountData Rest → bool) →
  list (PlayerPreviewAccountData Rest) → list (PlayerPreviewAccountData Rest)).
Context (toLowercase : list N → list N).
Implicit Types (p : InvitePopup.t Rest)
  (pl item : PlayerPreviewAccountData Rest)
  (l : list (PlayerPreviewAccountData Rest)).

Lemma comp_swo : strict_weak_order (comp (Rest:=Rest) isFriend).
Proof.
  split_and!.
  - intros x. unfold comp. destruct (isFriend (accountId x)); simpl;
      apply lex_ltb_irrefl.
  - intros x y z. unfold comp.
    destruct (isFriend (accountId x)), (isFriend (accountId y)),
      (isFriend (accountId z)); simpl; try done; apply lex_ltb_trans.
  - intros x y z. unfold comp.
    destruct (isFriend (accountId x)), (isFriend (accountId y)),
      (isFriend (accountId z)); simpl; try done;
      intros Hxy Hyx Hyz Hzy; split; by eapply lex_ltb_neg_trans.
Qed.

(** X11. The comparison [sortPlayerList] hands to [std::sort] is a strict
    weak ordering, as [std::sort] requires.  A friend comes before a player
    who is not one whatever their names, and two players of the same kind
    whose names differ only in the case of letters tie. *)
Theorem comp_strict_weak_order :
  strict_weak_order (comp (Rest:=Rest) isFriend) ∧
  (∀ pl1 pl2 : PlayerPreviewAccountData Rest,
     isFriend (accountId pl1) = true → isFriend (accountId pl2) = false →
     comp isFriend pl1 pl2 = true ∧ comp isFriend pl2 pl1 = false) ∧
  (∀ pl1 pl2 : PlayerPreviewAccountData Rest,
     isFriend (accountId pl1) = isFriend (accountId pl2) →
     lowercase (name pl1) = lowercase (name pl2) →
     comp isFriend pl1 pl2 = false ∧ comp isFriend pl2 pl1 = false).
Proof.
  split_and!.
  - apply comp_swo.
  - intros pl1 pl2 H1 H2. unfold comp. by rewrite H1, H2.
  - intros pl1 pl2 Hsame Hname. unfold comp. rewrite Hsame, Hname.
    destruct (isFriend (accountId pl2)); simpl;
      by rewrite lex_ltb_irrefl.
Qed.

(** X12. When [std::sort] meets its specification, [sortPlayerList] keeps
    exactly the players of the filtered list whose account id is not [0],
    each as often as it was there, and leaves the full player list
    alone. *)
Theorem sortPlayerList_keeps_accounts p :
  std_sort_spec std_sort →
  filteredPlayerList (sortPlayerList isFriend std_sort p)
    ≡ₚ filter (λ pl, accountId pl ≠ 0%Z) (filteredPlayerList p) ∧
  (∀ pl, pl ∈ filteredPlayerList (sortPlayerList isFriend std_sort p) ↔
         pl ∈ filteredPlayerList p ∧ accountId pl ≠ 0%Z) ∧
  playerList (sortPlayerList isFriend std_sort p) = playerList p.
Proof.
  intros Hsort.
  destruct (Hsort (comp isFriend)
              (filter (λ pl, accountId pl ≠ 0%Z) (filteredPlayerList p))
              comp_swo) as [Hperm _].
  simpl. split_and!; [done| |done].
  intros pl. rewrite Hperm, list_elem_of_filter. tauto.
Qed.

(** X13. When [std::sort] meets its specification, the list
    [sortPlayerList] leaves has the friends before everyone else, and within
    the friends and within the others the names in ascending order, letter
    case ignored: of two players, the later one is never a friend when the
    earlier is not, and never has the smaller lowercased name when both are
    of the same kind. *)
Theorem sortPlayerList_friends_then_names p i j pl1 pl2 :
  std_sort_spec std_sort →
  i < j →
  filteredPlayerList (sortPlayerList isFriend std_sort p) !! i = Some pl1 →
  filteredPlayerList (sortPlayerList isFriend std_sort p) !! j = Some pl2 →
  (isFriend (accountId pl2) = true → isFriend (accountId pl1) = true) ∧
  (isFriend (accountId pl1) = isFriend (accountId pl2) →
   lex_ltb (lowercase (name pl2)) (lowercase (name pl1)) = false).
Proof.
  intros Hsort Hij Hi Hj.
  destruct (Hsort (comp isFriend)
              (filter (λ pl, accountId pl ≠ 0%Z) (filteredPlayerList p))
              comp_swo) as [_ Hsorted].
  simpl in Hi, Hj.
  pose proof (StronglySorted_lookup_lt _ _ i j pl1 pl2 Hsorted Hij Hi Hj)
    as Hcomp.
  simpl in Hcomp. unfold comp in Hcomp.
  destruct (isFriend (accountId pl1)), (isFriend (accountId pl2));
    simpl in Hcomp; split; done.
Qed.

End invite_popup_props.

(** ** InvitePopup: searching, reloading and receiving the list *)

Section find_facts.
Import InvitePopup.
Implicit Types (s pat : list N).

Lemma starts_with_spec pat s :
  starts_with pat s = true ↔ ∃ l2, s = pat ++ l2.
Proof.
  revert s. induction pat as [|x pat IH]; intros s; simpl.
  - split; [by exists s | done].
  - destruct s as [|y s].
    + split; [done | by intros [l2 ?]].
    + rewrite andb_true_iff, N.eqb_eq, IH. split.
      * intros [-> [l2 ->]]. by exists l2.
      * intros [l2 [= -> ->]]. split; [done | by exists l2].
Qed.

(** [find] answers a position exactly when the pattern occurs. *)
Lemma find_from_is_Some pos s pat :
  is_Some (find_from pos s pat) ↔ ∃ l1 l2, s = l1 ++ pat ++ l2.
Proof.
  revert pos. induction s as [|x s IH]; intros pos; simpl.
  - destruct (starts_with pat []) eqn:Hstart.
    + apply starts_with_spec in Hstart as [l2 Hl2].
      split; [intros _; by exists [], l2 | by eexists].
    + split; [by intros [? ?]|]. intros (l1 & l2 & Heq).
      symmetry in Heq. apply app_eq_nil in Heq as [-> Heq].
      apply app_eq_nil in Heq as [-> ->]. done.
  - destruct (starts_with pat (x :: s)) eqn:Hstart.
    + apply starts_with_spec in Hstart as [l2 Hl2].
      split; [intros _; by exists [], l2 | by eexists].
    + rewrite IH. split.
      * intros (l1 & l2 & ->). by exists (x :: l1), l2.
      * intros ([|y l1] & l2 & Heq).
        -- assert (starts_with pat (x :: s) = true) as Hyes
             by (apply starts_with_spec; by exists l2).
           congruence.
        -- injection Heq as -> ->. by exists l1, l2.
Qed.

End find_facts.

Section invite_popup_events.
Import InvitePopup.
Context {Rest : Type}.
Context (isFriend : Z → bool).
Context (std_sort :
  (PlayerPreviewAccountData Rest → PlayerPreviewAccountData Rest → bool) →
  list (PlayerPreviewAccountData Rest) → list (PlayerPreviewAccountData Rest)).
Context (toLowercase : list N → list N).
Implicit Types (p : InvitePopup.t Rest)
  (pl item : PlayerPreviewAccountData Rest)
  (l : list (PlayerPreviewAccountData Rest))
  (h : list (InvitePopup.event Rest)).

Lemma push_back_all_id l : push_back_all l = l.
Proof.
  unfold push_back_all.
  assert (∀ out, foldl (λ out item, out ++ [item]) out l = out ++ l) as H.
  { induction l as [|x l IH]; intros out; simpl.
    - by rewrite app_nil_r.
    - rewrite IH. by rewrite <- app_assoc. }
  apply H.
Qed.

Lemma push_back_matching_filter filt l :
  push_back_matching toLowercase filt l
  = filter (λ item, is_Some (find (toLowercase (name item)) filt)) l.
Proof.
  unfold push_back_matching.
  assert (∀ out,
    foldl (λ out item,
             match find (toLowercase (name item)) filt with
             | Some _ => out ++ [item]
             | None => out
             end) out l
    = out ++ filter (λ item, is_Some (find (toLowercase (name item)) filt)) l)
    as H.
  { induction l as [|x l IH]; intros out; simpl.
    - by rewrite filter_nil, app_nil_r.
    - rewrite IH. destruct (find (toLowercase (name x)) filt) eqn:Hf.
      + rewrite filter_cons_True by (rewrite Hf; by eexists).
        by rewrite <- app_assoc.
      + rewrite filter_cons_False; [done|]. rewrite Hf. by intros [? ?]. }
  apply H.
Qed.

(** X14. [applyFilter] with an empty input makes the filtered list the
    whole player list again and takes the clear-search button away.  With a
    non-empty input the filtered list is the players, in the order of the
    player list, whose lowercased name contains the lowercased input, and
    the button is shown.  Either way the player list itself is untouched and
    the previous filter plays no part: filters do not add up. *)
Theorem applyFilter_selects (c : N) (input input' : list N) p :
  (filteredPlayerList (applyFilter toLowercase [] p) = playerList p ∧
   clearSearchButton_shown (applyFilter toLowercase [] p) = false) ∧
  (filteredPlayerList (applyFilter toLowercase (c :: input) p)
     `sublist_of` playerList p ∧
   (∀ item,
      item ∈ filteredPlayerList (applyFilter toLowercase (c :: input) p) ↔
      item ∈ playerList p ∧
      ∃ before after : list N,
        toLowercase (name item)
        = before ++ toLowercase (c :: input) ++ after) ∧
   clearSearchButton_shown (applyFilter toLowercase (c :: input) p) = true) ∧
  playerList (applyFilter toLowercase input p) = playerList p ∧
  filteredPlayerList
    (applyFilter toLowercase input (applyFilter toLowercase input' p))
  = filteredPlayerList (applyFilter toLowercase input p).
Proof.
  split_and!; simpl.
  - apply push_back_all_id.
  - done.
  - rewrite push_back_matching_filter. apply sublist_filter.
  - intros item. rewrite push_back_matching_filter, list_elem_of_filter.
    unfold find. rewrite find_from_is_Some. tauto.
  - done.
  - by destruct input.
  - destruct input, input'; done.
Qed.

Lemma sent_removeLoadingCircle p :
  sent (removeLoadingCircle p) = sent p ∧
  isWaiting (removeLoadingCircle p) = isWaiting p.
Proof. unfold removeLoadingCircle. by destruct (loadingCircle p). Qed.

Lemma sent_onLoaded stateChanged p :
  sent (onLoaded stateChanged p) = sent p ∧
  isWaiting (onLoaded stateChanged p) = isWaiting p.
Proof.
  unfold onLoaded, removeLoadingCircle.
  by destruct stateChanged, (loadingCircle p).
Qed.

Lemma sent_applyFilter input p :
  sent (applyFilter toLowercase input p) = sent p ∧
  isWaiting (applyFilter toLowercase input p) = isWaiting p.
Proof. by destruct input. Qed.

Lemma handle_sent p e :
  let p' := handle isFriend std_sort toLowercase p e in
  match e with
  | GlobalPlayerList _ => sent p' = sent p ∧ isWaiting p' = false
  | Reload _ _ =>
      (isWaiting p = true → sent p' = sent p ∧ isWaiting p' = true) ∧
      (isWaiting p = false → sent p' ≤ S (sent p) ∧
                             (isWaiting p' = false → sent p' = sent p))
  | _ => sent p' = sent p ∧ isWaiting p' = isWaiting p
  end.
Proof.
  destruct e as [established sendPacket|data|input|]; cbv zeta;
    unfold handle.
  - unfold reloadPlayerList, removeLoadingCircle.
    destruct established, sendPacket, (loadingCircle p), (isWaiting p);
      simpl; split; intros; try done; split; intros; try done; lia.
  - unfold onGlobalPlayerList. cbv zeta.
    by rewrite (proj1 (sent_onLoaded _ _)), (proj2 (sent_onLoaded _ _)).
  - unfold onSearch.
    rewrite (proj1 (sent_onLoaded _ _)), (proj2 (sent_onLoaded _ _)).
    simpl. apply sent_applyFilter.
  - unfold onClearSearch.
    by rewrite (proj1 (sent_onLoaded _ _)), (proj2 (sent_onLoaded _ _)).
Qed.

Lemma received_snoc h e :
  length (received (h ++ [e]))
  = length (received h)
    + match e with GlobalPlayerList _ => 1 | _ => 0 end.
Proof.
  unfold received. rewrite bind_app, length_app. simpl.
  by destruct e.
Qed.

(** X15. The popup never has more than one request for the player list
    outstanding.  From a popup that is not waiting, after any history of
    reloads, received lists and searches, the requests sent are at most the
    lists received, plus one while it is waiting; so without a list
    received in between at most one request goes out however often a reload
    is asked for.  A reload while the connection is not established sends
    nothing and closes the popup; a reload while it is leaves the loading
    circle on. *)
Theorem at_most_one_request_outstanding h p (sendPacket : bool) :
  (isWaiting p = false →
   sent (run isFriend std_sort toLowercase h p)
   ≤ sent p + length (received h)
     + (if isWaiting (run isFriend std_sort toLowercase h p)
        then 1 else 0)) ∧
  (sent (reloadPlayerList false sendPacket p) = sent p ∧
   closed (reloadPlayerList false sendPacket p) = true ∧
   isLoading (reloadPlayerList false sendPacket p) = isLoading p) ∧
  isLoading (reloadPlayerList true sendPacket p) = true.
Proof.
  split_and!; try done.
  intros Hp. unfold run.
  induction h as [|e h IH] using rev_ind.
  - simpl. rewrite Hp. lia.
  - rewrite foldl_app, received_snoc. simpl.
    set (p1 := foldl (handle isFriend std_sort toLowercase) p h) in *.
    pose proof (handle_sent p1 e) as He. simpl in He.
    destruct e as [established send|data|input|].
    + destruct He as [Hwait Hfree].
      destruct (isWaiting p1) eqn:Hw.
      * destruct (Hwait eq_refl) as [-> ->]. lia.
      * destruct (Hfree eq_refl) as [Hle Hsame].
        destruct (isWaiting (handle _ _ _ p1 _)) eqn:Hw'; [lia|].
        rewrite (Hsame eq_refl). lia.
    + destruct He as [-> ->]. destruct (isWaiting p1); lia.
    + destruct He as [-> ->]. lia.
    + destruct He as [-> ->]. lia.
Qed.

(** X16. When a player list arrives, whatever the popup showed or searched
    for before: the list is stored, the search filter is dropped, and the
    cells shown are all the players of the list whose account id is not
    [0], as [std::sort] orders them; the popup is no longer waiting or
    loading and has its button menu.  After a search the cells are the
    matching players, sorted the same way. *)
Theorem list_shown_after_response
    (data : list (PlayerPreviewAccountData Rest)) (c : N) (input : list N)
    p :
  let p' := onGlobalPlayerList isFriend std_sort toLowercase data p in
  let ps := onSearch isFriend std_sort toLowercase (c :: input) p in
  (playerList p' = data ∧
   cells p' = std_sort (comp isFriend)
                (filter (λ pl, accountId pl ≠ 0%Z) data) ∧
   filteredPlayerList p' = cells p' ∧
   isWaiting p' = false ∧ isLoading p' = false ∧
   clearSearchButton_shown p' = false ∧ roomBtnMenu p' = true) ∧
  (cells ps
   = std_sort (comp isFriend)
       (filter (λ pl, accountId pl ≠ 0%Z)
          (filter (λ item, is_Some (find (toLowercase (name item))
                                      (toLowercase (c :: input))))
             (playerList p))) ∧
   playerList ps = playerList p ∧ isLoading ps = false).
Proof.
  assert (∀ l, foldl (λ cells pdata, cells ++ [pdata]) [] l = l) as Hcells
    by apply push_back_all_id.
  simpl. unfold onGlobalPlayerList, onSearch, onLoaded, removeLoadingCircle,
    isLoading. simpl.
  split.
  - destruct (roomBtnMenu p), (loadingCircle p); simpl;
      rewrite ?Hcells, ?push_back_all_id; done.
  - destruct (loadingCircle p); simpl;
      rewrite ?Hcells, ?push_back_matching_filter; done.
Qed.

End invite_popup_events.

Example sortPlayerList_players :
  InvitePopup.name <$>
    InvitePopup.filteredPlayerList
      (InvitePopup.sortPlayerList friends InvitePopup.merge_std_sort popup0)
  = InvitePopup.bytes <$> ["carol"; "Zed"; "Alice"; "bob"]%string.
Proof. vm_compute. reflexivity. Qed.

Example search_players :
  InvitePopup.name <$>
    InvitePopup.cells
      (InvitePopup.onSearch friends InvitePopup.merge_std_sort
         InvitePopup.lowercase (InvitePopup.bytes "O") popup0)
  = InvitePopup.bytes <$> ["carol"; "bob"]%string.
Proof. vm_compute. reflexivity. Qed.

Lemma sortPlayerList_keeps_accounts_witness :
  InvitePopup.filteredPlayerList
    (InvitePopup.sortPlayerList friends InvitePopup.merge_std_sort popup0)
  ≡ₚ filter (λ pl, InvitePopup.accountId pl ≠ 0%Z)
       (InvitePopup.filteredPlayerList popup0).
Proof.
  apply (sortPlayerList_keeps_accounts friends InvitePopup.merge_std_sort
           popup0 merge_std_sort_spec).
Defined.

Lemma sortPlayerList_friends_then_names_witness :
  InvitePopup.lex_ltb (InvitePopup.lowercase (InvitePopup.bytes "Zed"))
    (InvitePopup.lowercase (InvitePopup.bytes "carol")) = false.
Proof.
  destruct (sortPlayerList_friends_then_names friends
              InvitePopup.merge_std_sort popup0 0 1
              (InvitePopup.mk_player 4 (InvitePopup.bytes "carol") ())
              (InvitePopup.mk_player 3 (InvitePopup.bytes "Zed") ())
              merge_std_sort_spec) as [_ Hnames];
    [lia | vm_compute; reflexivity | vm_compute; reflexivity |].
  apply Hnames. reflexivity.
Defined.

Lemma comp_strict_weak_order_witness :
  InvitePopup.comp friends
    (InvitePopup.mk_player 3 (InvitePopup.bytes "Zed") ())
    (InvitePopup.mk_player 2 (InvitePopup.bytes "Alice") ()) = true ∧
  InvitePopup.comp friends
    (InvitePopup.mk_player 2 (InvitePopup.bytes "Alice") ())
    (InvitePopup.mk_player 1 (InvitePopup.bytes "ALICE") ()) = false.
Proof.
  destruct (comp_strict_weak_order (Rest:=unit) friends)
    as (_ & Hfriend & Htie).
  split.
  - apply Hfriend; reflexivity.
  - apply Htie; reflexivity.
Defined.

Lemma applyFilter_selects_witness :
  InvitePopup.mk_player 1 (InvitePopup.bytes "bob") ()
  ∈ InvitePopup.filteredPlayerList
      (InvitePopup.applyFilter InvitePopup.lowercase
         (InvitePopup.bytes "OB") popup0).
Proof.
  destruct (applyFilter_selects InvitePopup.lowercase 79%N [66%N] [] popup0)
    as (_ & (_ & Hin & _) & _).
  apply Hin. split.
  - vm_compute. apply elem_of_cons. by left.
  - exists [98%N], []. reflexivity.
Defined.

Lemma at_most_one_request_outstanding_witness :
  let h := [InvitePopup.Reload true true; InvitePopup.Reload true true;
            InvitePopup.Search (InvitePopup.bytes "o");
            InvitePopup.Reload true true] in
  InvitePopup.sent
    (InvitePopup.run friends InvitePopup.merge_std_sort
       InvitePopup.lowercase h popup0) = 1 ∧
  InvitePopup.sent
    (InvitePopup.run friends InvitePopup.merge_std_sort
       InvitePopup.lowercase h popup0)
  ≤ InvitePopup.sent popup0 + length (InvitePopup.received h)
    + (if InvitePopup.isWaiting
            (InvitePopup.run friends InvitePopup.merge_std_sort
               InvitePopup.lowercase h popup0)
       then 1 else 0).
Proof.
  split; [vm_compute; reflexivity|].
  apply (at_most_one_request_outstanding friends InvitePopup.merge_std_sort
           InvitePopup.lowercase
           [InvitePopup.Reload true true; InvitePopup.Reload true true;
            InvitePopup.Search (InvitePopup.bytes "o");
            InvitePopup.Reload true true] popup0 true).
  reflexivity.
Defined.

(** ** SmartMessageQueue: notifications *)

Section queue_notifications.
Import SmartMessageQueue.
Context {T : Type}.
Implicit Types (q : SmartMessageQueue.t T) (got : list T).

Lemma notifying_pushes_cons (c : call (T:=T)) (h : list call) :
  notifying_pushes (c :: h)
  = match c with Push _ true => 1 | _ => 0 end + notifying_pushes h.
Proof.
  unfold notifying_pushes. simpl. rewrite length_app.
  by destruct c as [? []| |].
Qed.

(** X17. The condition variable is notified once for every [push] with
    [notify] set and by nothing else: after a history of calls that returns,
    the notifications issued are those at the start plus the number of
    notifying pushes; [pop] and [popAll] never notify. *)
Theorem notifications_match_pushes (h : list call) q q' got got' :
  run h (q, got) = Normal (q', got') →
  _cvar q' = _cvar q + notifying_pushes h.
Proof.
  revert q got. induction h as [|c h IH]; intros q got Hrun.
  - simpl in Hrun. injection Hrun as <- <-. unfold notifying_pushes.
    simpl. lia.
  - destruct c as [msg notify| |]; simpl in Hrun.
    + apply IH in Hrun. rewrite Hrun, notifying_pushes_cons. unfold push.
      destruct notify; simpl; lia.
    + unfold pop in Hrun. destruct (_iq q) as [|val rest]; [done|].
      apply IH in Hrun. by rewrite Hrun, notifying_pushes_cons.
    + rewrite popAll_spec in Hrun. apply IH in Hrun.
      by rewrite Hrun, notifying_pushes_cons.
Qed.

End queue_notifications.

Lemma notifications_match_pushes_witness :
  SmartMessageQueue._cvar (SmartMessageQueue.mk [4] 3)
  = SmartMessageQueue._cvar (SmartMessageQueue.new (T:=nat)) + 3.
Proof.
  apply (notifications_match_pushes
           [SmartMessageQueue.Push 1 true; SmartMessageQueue.Push 2 false;
            SmartMessageQueue.Pop; SmartMessageQueue.Push 3 true;
            SmartMessageQueue.PopAll; SmartMessageQueue.Push 4 true]
           SmartMessageQueue.new (SmartMessageQueue.mk [4] 3) [] [1; 2; 3]).
  reflexivity.
Defined.

(** ** GlobedNameLabel *)

Section name_label_props.
Import GlobedNameLabel.
Context {RichColor : Type}.
Implicit Types (n : GlobedNameLabel.t RichColor)
  (h : list (GlobedNameLabel.call RichColor)).

Lemma c_str_no_nul (name : list N) : 0%N ∉ c_str name.
Proof.
  induction name as [|c name IH]; simpl; [apply not_elem_of_nil|].
  destruct (N.eqb_spec c 0); [apply not_elem_of_nil|].
  apply not_elem_of_cons. split; [done|apply IH].
Qed.

Lemma c_str_prefix (name : list N) : c_str name `prefix_of` name.
Proof.
  induction name as [|c name IH]; simpl; [done|].
  destruct (c =? 0)%N; [apply prefix_nil | by apply prefix_cons].
Qed.

Lemma c_str_id (name : list N) : 0%N ∉ name → c_str name = name.
Proof.
  induction name as [|c name IH]; simpl; [done|].
  intros Hnot. apply not_elem_of_cons in Hnot as [Hc Hname].
  destruct (N.eqb_spec c 0); [done|]. by rewrite IH.
Qed.

Lemma updateName_c_well_formed (name : list N) n :
  well_formed n → well_formed (updateName_c name n).
Proof.
  unfold well_formed, updateName_c, expected_children.
  destruct n as [[l|] b ch]; simpl; [done|].
  intros ->. by rewrite (comm (++)).
Qed.

Lemma updateBadge_well_formed (badgeSprite : option nat) n :
  well_formed n → well_formed (updateBadge badgeSprite n).
Proof.
  unfold well_formed, updateBadge, expected_children.
  destruct n as [l [[old o]|] ch]; simpl; intros Hch.
  - assert (filter (λ c, c ≠ BadgeChild old) ch
            ≡ₚ match l with Some _ => [LabelChild] | None => [] end)
      as Hrest.
    { rewrite Hch, filter_app.
      rewrite (filter_cons_False _ (BadgeChild old)) by (intros Hne; done).
      rewrite filter_nil, app_nil_r.
      destruct l; [|done].
      by rewrite filter_cons_True, filter_nil. }
    destruct badgeSprite as [sprite|]; simpl; rewrite Hrest;
      by rewrite ?app_nil_r.
  - rewrite app_nil_r in Hch.
    destruct badgeSprite as [sprite|]; simpl; rewrite Hch;
      by rewrite ?app_nil_r.
Qed.

Lemma updateColor_well_formed (color : RichColor) n :
  well_formed n → well_formed (updateColor color n).
Proof.
  unfold well_formed, updateColor, expected_children.
  by destruct n as [[l|] b ch].
Qed.

Lemma updateOpacity_well_formed (o : N) n :
  well_formed n → well_formed (updateOpacity o n).
Proof.
  unfold well_formed, updateOpacity, expected_children.
  by destruct n as [[l|] [[sprite ob]|] ch].
Qed.

Lemma step_well_formed n (c : GlobedNameLabel.call RichColor) :
  well_formed n → well_formed (step n c).
Proof.
  intros Hn. destruct c; simpl.
  - by apply updateName_c_well_formed.
  - by apply updateBadge_well_formed.
  - by apply updateColor_well_formed.
  - by apply updateOpacity_well_formed.
  - by apply updateColor_well_formed, updateBadge_well_formed,
      updateName_c_well_formed.
Qed.

Lemma updateBadge_label (badgeSprite : option nat) n :
  label (updateBadge badgeSprite n) = label n.
Proof. unfold updateBadge. by destruct badgeSprite. Qed.

Lemma step_keeps_label n (c : GlobedNameLabel.call RichColor) :
  is_Some (label n) → is_Some (label (step n c)).
Proof.
  intros [l Hl].
  destruct c as [nm|b|col|o|nm b col]; simpl;
    unfold updateData, updateName, updateName_c, updateColor, updateOpacity;
    rewrite ?updateBadge_label; simpl; rewrite ?Hl; simpl;
    rewrite ?updateBadge_label; simpl; rewrite ?Hl; by eexists.
Qed.

(** X18. A name label never collects stale widgets.  [create] gives
    [nullptr] when the node fails to initialise, and otherwise a label
    whose text is the name (up to its first [0] byte, as a C string),
    tinted to the colour given, with the badge given; and after any history
    of updates of the name, the badge, the colour and the opacity, the
    children of the node are still exactly its one label and its current
    badge, if it has one: a replaced badge has left the node. *)
Theorem name_label_children
    (name : list N) (badgeSprite : option nat) (nameColor : RichColor) h :
  create false name badgeSprite nameColor = None ∧
  ∃ n, create true name badgeSprite nameColor = Some n ∧
       (text <$> label n) = Some (c_str name) ∧
       (label n ≫= tint) = Some nameColor ∧
       (fst <$> badge n) = badgeSprite ∧
       well_formed n ∧
       well_formed (run h n) ∧
       is_Some (label (run h n)).
Proof.
  split; [done|].
  eexists. split; [reflexivity|].
  assert (well_formed (updateData name badgeSprite nameColor
                         (new (RichColor:=RichColor)))) as Hwf.
  { apply updateColor_well_formed, updateBadge_well_formed,
      updateName_c_well_formed. unfold well_formed. reflexivity. }
  split_and!; try done.
  - by destruct badgeSprite.
  - by destruct badgeSprite.
  - by destruct badgeSprite.
  - unfold run. induction h as [|c h IH] using rev_ind; [done|].
    rewrite foldl_app. simpl. by apply step_well_formed.
  - unfold run. induction h as [|c h IH] using rev_ind.
    + destruct badgeSprite; by eexists.
    + rewrite foldl_app. simpl. by apply step_keeps_label.
Qed.

(** X19. The text [updateName] gives the label is the name read as a C
    string: it holds no [0] byte, it is the name itself when the name
    holds none, and otherwise the part of the name before the first. *)
Theorem updateName_text (name : list N) n :
  (text <$> label (updateName name n)) = Some (c_str name) ∧
  (0%N ∉ c_str name) ∧
  c_str name `prefix_of` name ∧
  (0%N ∉ name → c_str name = name).
Proof.
  split_and!.
  - unfold updateName, updateName_c. by destruct n as [[l|] b ch].
  - apply c_str_no_nul.
  - apply c_str_prefix.
  - apply c_str_id.
Qed.

End name_label_props.

Lemma updateName_text_witness :
  GlobedNameLabel.c_str (InvitePopup.bytes "bob") = InvitePopup.bytes "bob".
Proof.
  apply (updateName_text (RichColor:=nat) (InvitePopup.bytes "bob")
           GlobedNameLabel.new).
  vm_compute. intros Hin. by repeat (apply elem_of_cons in Hin as [?|Hin];
    [done|]); apply elem_of_nil in Hin.
Defined.

Example replaced_badge_leaves :
  GlobedNameLabel.children
    (GlobedNameLabel.run
       [GlobedNameLabel.UpdateBadge (Some 8);
        GlobedNameLabel.UpdateName [66%N];
        GlobedNameLabel.UpdateBadge (Some 9)]
       (GlobedNameLabel.updateData [65%N] (Some 7) 0 GlobedNameLabel.new))
  = [GlobedNameLabel.LabelChild; GlobedNameLabel.BadgeChild 9].
Proof. vm_compute. reflexivity. Qed.
